(** * Morillas-Fourier Method: the prime-generation experiment

    A shallow embedding of [Code/MFM_Prime_Generation.py] and the properties
    of its computational core: the Fibonacci base sequence [base_MFM], the
    trigonometric correction [correction_fourier], the primality predicate
    [is_prime_pythonic] and the sweep over K performed by [main].

    Python integers are [Z].  Python and NumPy floats are IEEE 754 binary64
    numbers; they are modelled by the finite values they denote (module
    [Binary64]), every operation returning the exact result rounded to
    nearest, ties to even.  Exceptions are an explicit [result] type, and the
    two ambient effects of the script, the process-wide random generator and
    the wall clock, are threaded through a state-and-error monad. *)

From Stdlib Require Import ZArith Zdivisibility QArith Qround Qabs List Bool Lia.
From Stdlib Require Import SpecFloat Lqa.
Import ListNotations.
Open Scope Z_scope.

(** ** Binary64 numbers *)

Module Binary64.

(** A finite binary64 number is [Fnum * 2 ^ Fexp].  The canonical form has
    [Fnum = 0] and [Fexp = 0], or a 53-bit mantissa
    [2^52 <= |Fnum| < 2^53].  The exponent range of the format is not
    modelled: no quantity of the program comes near its ends. *)
Record float := Float { Fnum : Z; Fexp : Z }.

Definition pow2 (e : Z) : Q :=
  match e with
  | Z0 => 1%Q
  | Zpos p => inject_Z (2 ^ Zpos p)
  | Zneg p => (1 # (2 ^ p))%Q
  end.

(** The rational a float denotes. *)
Definition B2Q (x : float) : Q := (inject_Z (Fnum x) * pow2 (Fexp x))%Q.

(** Nearest integer to [a / b] for [0 < b], ties to the even one. *)
Definition rne (a b : Z) : Z :=
  let q := a / b in
  match 2 * (a mod b) ?= b with
  | Lt => q
  | Gt => q + 1
  | Eq => if Z.even q then q else q + 1
  end.

(** The fraction [(a / b) * 2 ^ s] as a pair of integers. *)
Definition scale (a b s : Z) : Z * Z :=
  if 0 <=? s then (a * 2 ^ s, b) else (a, b * 2 ^ (- s)).

(** [floor (log2 (a / b))] for positive [a] and [b]. *)
Definition ilog2 (a b : Z) : Z :=
  let l := Z.log2 a - Z.log2 b in
  let '(a', b') := scale a b (- l) in
  if a' <? b' then l - 1 else l.

(** Rounding of the positive rational [a / b] to 53 significant bits. *)
Definition round_pos (a b : Z) : float :=
  let l := ilog2 a b in
  let '(a', b') := scale a b (52 - l) in
  let m := rne a' b' in
  if m =? 2 ^ 53 then Float (2 ^ 52) (l - 51) else Float m (l - 52).

Definition fopp (x : float) : float := Float (- Fnum x) (Fexp x).

(** Rounding to nearest, ties to even. *)
Definition round (q : Q) : float :=
  match Qnum q with
  | Z0 => Float 0 0
  | Zpos a => round_pos (Zpos a) (Zpos (Qden q))
  | Zneg a => fopp (round_pos (Zpos a) (Zpos (Qden q)))
  end.

Definition zero : float := Float 0 0.
Definition of_Z (n : Z) : float := round (inject_Z n).
Definition fadd (x y : float) : float := round (B2Q x + B2Q y).
Definition fsub (x y : float) : float := round (B2Q x - B2Q y).
Definition fmul (x y : float) : float := round (B2Q x * B2Q y).
(** Division by a non-zero float; the callers test for zero first. *)
Definition fdiv (x y : float) : float := round (B2Q x / B2Q y).

Definition is_zero (x : float) : bool := Fnum x =? 0.

(** Nearest integer to a rational, ties to even, and truncation. *)
Definition rint (q : Q) : Z := rne (Qnum q) (Zpos (Qden q)).
Definition trunc (q : Q) : Z := Z.quot (Qnum q) (Zpos (Qden q)).

End Binary64.
Import Binary64.

(** ** Exceptions and effects *)

(** The two exceptions the script can raise: a division by zero and NumPy's
    rejection of a negative array size. *)
Inductive exn := ZeroDivisionError | ValueError.

Inductive result (A : Type) : Type :=
| Ok (a : A)
| Raise (e : exn).
Arguments Ok {A} a.
Arguments Raise {A} e.

(** The ambient state of the process: the global NumPy generator, seen as
    the stream of standard uniform samples it is going to deliver together
    with the number of samples consumed so far, and the wall clock, seen as
    the successive readings of [time.time()]. *)
Record World := mkWorld {
  rng_stream : nat -> float;
  rng_pos : nat;
  clock : nat -> float;
  clock_pos : nat
}.

Definition M (A : Type) : Type := World -> result (A * World).

Definition ret {A : Type} (a : A) : M A := fun w => Ok (a, w).

Definition bind {A B : Type} (m : M A) (f : A -> M B) : M B :=
  fun w => match m w with
           | Ok (a, w') => f a w'
           | Raise e => Raise e
           end.

Definition lift {A : Type} (r : result A) : M A :=
  fun w => match r with
           | Ok a => Ok (a, w)
           | Raise e => Raise e
           end.

Declare Scope monad_scope.
Delimit Scope monad_scope with monad.
Notation "x <- m ;; k" := (bind m (fun x => k))
  (at level 61, m at next level, right associativity) : monad_scope.
Notation "' pat <- m ;; k" := (bind m (fun x => match x with pat => k end))
  (at level 61, pat pattern, m at next level, right associativity) : monad_scope.

(** The world after one more reading of the clock, and after [k] more
    samples of the generator. *)
Definition tick (w : World) : World :=
  mkWorld (rng_stream w) (rng_pos w) (clock w) (S (clock_pos w)).
Definition consume (w : World) (k : nat) : World :=
  mkWorld (rng_stream w) (rng_pos w + k) (clock w) (clock_pos w).

(** [time.time()] *)
Definition time_time : M float := fun w => Ok (clock w (clock_pos w), tick w).

(** [np.random.uniform(low, high, size)]: [size] samples
    [low + (high - low) * u], one standard uniform [u] of the global
    generator each. *)
Definition np_random_uniform (low high : float) (size : Z) : M (list float) :=
  fun w =>
    if size <? 0 then Raise ValueError
    else
      let k := Z.to_nat size in
      Ok (map (fun i => fadd low (fmul (fsub high low)
                                       (rng_stream w (rng_pos w + i)%nat)))
              (seq 0 k),
          consume w k).

(** A list comprehension whose body may raise. *)
Fixpoint map_result {A B : Type} (f : A -> result B) (l : list A)
  : result (list B) :=
  match l with
  | [] => Ok []
  | a :: l' =>
      match f a with
      | Raise e => Raise e
      | Ok b => match map_result f l' with
                | Raise e => Raise e
                | Ok bs => Ok (b :: bs)
                end
      end
  end.

Fixpoint zip_with {A B C : Type} (f : A -> B -> C) (l : list A) (l' : list B)
  : list C :=
  match l, l' with
  | a :: t, b :: t' => f a b :: zip_with f t t'
  | _, _ => []
  end.

(** [range(K)] and [np.arange(lo, hi, dtype=int)] *)
Definition range (K : Z) : list Z := map Z.of_nat (seq 0 (Z.to_nat K)).
Definition np_arange (lo hi : Z) : list Z :=
  map (fun i => lo + Z.of_nat i) (seq 0 (Z.to_nat (hi - lo))).

(** Python's [x / y] on floats, [int(x)], [sum] of booleans, and NumPy's
    [np.round] (round half to even) and [np.pi]. *)
Definition py_truediv (x y : float) : result float :=
  if is_zero y then Raise ZeroDivisionError else Ok (fdiv x y).
Definition py_int (x : float) : Z := trunc (B2Q x).
Definition py_sum (flags : list bool) : Z :=
  fold_left (fun acc (b : bool) => acc + (if b then 1 else 0)) flags 0.
Definition np_round (x : float) : float := of_Z (rint (B2Q x)).
Definition np_pi : float := Float 7074237752028440 (-51).

(** ** The program *)

(** [sympy.fibonacci(n)] for [0 <= n]: the exact n-th Fibonacci number. *)
Fixpoint fib_pair (k : nat) : Z * Z :=
  match k with
  | O => (0, 1)
  | S k' => let '(a, b) := fib_pair k' in (b, a + b)
  end.

Definition fibonacci_sympy (n : Z) : Z := fst (fib_pair (Z.to_nat n)).

(** [F // d] of a sympy Integer by a float: the float is taken as the exact
    rational it denotes and the quotient is floored; a zero divisor raises. *)
Definition sympy_floordiv (F : Z) (d : float) : result Z :=
  if is_zero d then Raise ZeroDivisionError
  else Ok (Qfloor (inject_Z F / B2Q d)).

(** [sympy.isprime(x)] for [2 <= x].  The library's test is exact below
    [2^64] and a strong Baillie-PSW test, with no known failure, above; it
    is modelled by the exact test, trial division up to the square root. *)
Definition sympy_isprime (x : Z) : bool :=
  forallb (fun d => negb (x mod d =? 0))
          (map (fun i => 2 + Z.of_nat i) (seq 0 (Z.to_nat (Z.sqrt x - 1)))).

Section Program.

(** The two functions of the C mathematical library the script reaches
    through Python and NumPy: [n ** 1.5] on an integer [n], and [np.cos]. *)
Variable pow15 : Z -> float.
Variable np_cos : float -> float.

Definition base_MFM (n : Z) : result Z :=
  if n <? 1 then Ok 2
  else
    let F_n := fibonacci_sympy n in
    let denominator := pow15 n in
    match sympy_floordiv F_n denominator with
    | Ok q => Ok (q + 2)
    | Raise e => Raise e
    end.

(** The loop [for k in range(K)] of [correction_fourier]. *)
Fixpoint correction_loop (n_array : list Z) (N : Z) (coeffs : list float)
    (ks : list Z) (corrections : list float) : result (list float) :=
  match ks with
  | [] => Ok corrections
  | k :: ks' =>
      match py_truediv (fmul (fmul (of_Z 2) np_pi) (of_Z k)) (of_Z N) with
      | Raise e => Raise e
      | Ok freq =>
          correction_loop n_array N coeffs ks'
            (zip_with fadd corrections
               (map (fun n => fmul (nth (Z.to_nat k) coeffs zero)
                                   (np_cos (fmul freq (of_Z n))))
                    n_array))
      end
  end.

Open Scope monad_scope.

Definition correction_fourier (n_array : list Z) (K : Z) : M (list float) :=
  let N := Z.of_nat (length n_array) in
  coeffs <- np_random_uniform (of_Z (-2)) (of_Z 2) K ;;
  let corrections := repeat zero (length n_array) in
  corrections <- lift (correction_loop n_array N coeffs (range K) corrections) ;;
  ret (map np_round corrections).

Definition is_prime_pythonic (x : Z) : bool :=
  if x <? 2 then false else sympy_isprime x.

(** One record of [results]: [(K, prime_count, prime_fraction, elapsed)]. *)
Record ExperimentResult := mkResult {
  res_K : Z;
  res_prime_count : Z;
  res_prime_fraction : float;
  res_elapsed : float
}.

(** Steps 1 to 3 of the loop body of [main]: the corrected values. *)
Definition sequence_vals (n_values : list Z) (K : Z) : M (list Z) :=
  base_vals <- lift (map_result base_MFM n_values) ;;
  correction_vals <- correction_fourier n_values K ;;
  ret (zip_with (fun b c => b + py_int c) base_vals correction_vals).

(** The body of the loop [for K in K_VALUES] of [main]. *)
Definition run_K (n_values : list Z) (K : Z) : M ExperimentResult :=
  start_time <- time_time ;;
  sequence_vals <- sequence_vals n_values K ;;
  let prime_flags := map is_prime_pythonic sequence_vals in
  let prime_count := py_sum prime_flags in
  prime_fraction <- lift (py_truediv (of_Z prime_count)
                            (of_Z (Z.of_nat (length sequence_vals)))) ;;
  end_time <- time_time ;;
  let elapsed := fsub end_time start_time in
  ret (mkResult K prime_count prime_fraction elapsed).

Fixpoint main_loop (n_values : list Z) (Ks : list Z)
    (results : list ExperimentResult) (times : list float)
  : M (list ExperimentResult * list float) :=
  match Ks with
  | [] => ret (results, times)
  | K :: Ks' =>
      r <- run_K n_values K ;;
      main_loop n_values Ks' (results ++ [r]) (times ++ [res_elapsed r])
  end.

(** [main], up to the point where [results] and [times] are handed to the
    CSV export and to the plots. *)
Definition main (N_MAX : Z) (K_VALUES : list Z)
  : M (list ExperimentResult * list float) :=
  let n_values := np_arange 1 (N_MAX + 1) in
  main_loop n_values K_VALUES [] [].

Close Scope monad_scope.

End Program.

(** ** Observing a run *)

(** The value a computation returns, its final world forgotten. *)
Definition value_of {A : Type} (r : result (A * World)) : result A :=
  match r with
  | Ok (a, _) => Ok a
  | Raise e => Raise e
  end.

(** The rounded corrections as a function of the coefficients drawn. *)
Definition corrections_of (np_cos : float -> float) (n_array : list Z)
    (K : Z) (coeffs : list float) : result (list float) :=
  match correction_loop np_cos n_array (Z.of_nat (length n_array)) coeffs
          (range K) (repeat zero (length n_array)) with
  | Ok c => Ok (map np_round c)
  | Raise e => Raise e
  end.

(** The part of a record that does not come from the clock. *)
Definition statistics (r : ExperimentResult) : Z * Z * float :=
  (res_K r, res_prime_count r, res_prime_fraction r).

Definition map_value {A B : Type} (f : A -> B) (r : result A) : result B :=
  match r with
  | Ok a => Ok (f a)
  | Raise e => Raise e
  end.

(** ** The mathematical library *)

(** The accuracy asked of the library's [n ** 1.5]: the result is a positive
    canonical float [m * 2^e], and [n^1.5], the square root of [n^3], lies
    strictly between its neighbours [(m - 1) * 2^e] and [(m + 1) * 2^e]; the
    error is below one unit in the last place. *)
Definition pow15_accurate (n : Z) (d : float) : Prop :=
  2 ^ 52 <= Fnum d < 2 ^ 53 /\
  (B2Q (Float (Fnum d - 1) (Fexp d)) * B2Q (Float (Fnum d - 1) (Fexp d))
     < inject_Z (n ^ 3)
   /\ inject_Z (n ^ 3)
     < B2Q (Float (Fnum d + 1) (Fexp d)) * B2Q (Float (Fnum d + 1) (Fexp d)))%Q.

(** A reference implementation, to run the script on.  [n ** 1.5] correctly
    rounded: the binary64 number nearest to the square root of [n ^ 3]. *)
Definition pow15_cr (n : Z) : float :=
  let X := n ^ 3 in
  let e := Z.log2 X / 2 - 52 in
  let '(A, B) := scale X 1 (- (2 * e)) in
  let s := Z.sqrt (A / B) in
  let m := match 4 * A ?= (2 * s + 1) ^ 2 * B with
           | Lt => s
           | Gt => s + 1
           | Eq => if Z.even s then s else s + 1
           end in
  if m =? 2 ^ 53 then Float (2 ^ 52) (e + 1) else Float m e.

(** The cosine series [1 - x^2/2! + x^4/4! - ...] for [x^2 = a / b], cut
    after [terms] terms and evaluated by Horner's rule from the term of
    degree [2 * i], in fixed point: the result is in units of [1 / one]. *)
Fixpoint cos_series (a b one i : Z) (terms : nat) : Z :=
  match terms with
  | O => one
  | S terms' =>
      one - a * cos_series a b one (i + 1) terms'
            / (b * ((2 * i + 1) * (2 * i + 2)))
  end.

(** A cosine: the series, summed until its terms are negligible and with
    enough fractional bits for the magnitude of [x], then rounded. *)
Definition cos_ref (x : float) : float :=
  let q := (B2Q x * B2Q x)%Q in
  let size := Qceiling (Qabs (B2Q x)) in
  let one := 2 ^ (160 + 3 * size) in
  let terms := (60 + 2 * Z.to_nat size)%nat in
  round (cos_series (Qnum q) (Zpos (Qden q)) one 0 terms # Z.to_pos one).

(** The reference cosine kept within [[-1, 1]], as a cosine is. *)
Definition cos_sat (x : float) : float :=
  let c := cos_ref x in
  if Qle_bool (- (1)) (B2Q c) && Qle_bool (B2Q c) 1 then c else of_Z 1.

(** ** The exact base value *)

(** [floor (F / n^1.5) + 2] in exact arithmetic: [n^1.5] is the square root
    of [n^3], so the floor of the quotient is the integer square root of
    [F^2 / n^3]. *)
Definition base_exact_of (F n : Z) : Z := Z.sqrt (F ^ 2 / n ^ 3) + 2.

Definition base_exact (n : Z) : Z := base_exact_of (fibonacci_sympy n) n.

(** A test on the index [n], for the binade [[2^(52-k), 2^(53-k))] whose
    floats are the multiples [M / 2^k]: with [F = F_n] and [q] the exact
    floored quotient, the floats of the binades above and below give
    floored quotients [F // d] more than 1 away from [q], and so does every
    multiple of [1 / 2^k]. *)
Definition far_from_exact (n k : Z) : bool :=
  let F := fibonacci_sympy n in
  let q := base_exact_of F n - 2 in
  (F * 2 ^ (k - 1) / 2 ^ 52 <? q - 1)
  && (q + 1 <? F * 2 ^ (k + 1) / 2 ^ 53)
  && (F * 2 ^ k <? (q - 1) * (F * 2 ^ k / (q + 2) + 1))
  && (1 <? q).

(** ** Sample inputs *)

(** A world to run the script in: the samples of a linear congruential
    generator, scaled to [[0, 1)], and a clock that starts at some date and
    advances by growing steps. *)
Definition sample_stream (i : nat) : float :=
  fdiv (of_Z ((6364136223846793005 * Z.of_nat i + 1442695040888963407)
              mod 2 ^ 53))
       (of_Z (2 ^ 53)).
Definition sample_clock (i : nat) : float :=
  fadd (of_Z 1700000000) (fdiv (of_Z (Z.of_nat (i * i))) (of_Z 8)).
Definition world0 : World := mkWorld sample_stream 0 sample_clock 0.

(** A second world: the generator of [world0], another clock. *)
Definition world1 : World :=
  mkWorld sample_stream 0 (fun i => of_Z (Z.of_nat i)) 7.

(** The primes up to 30. *)
Definition small_primes : list Z := [2; 3; 5; 7; 11; 13; 17; 19; 23; 29].

(** The same number in the IEEE 754 model of the standard library. *)
Definition to_spec (x : float) : spec_float :=
  match Fnum x with
  | Z0 => S754_zero false
  | Zpos m => S754_finite false m (Fexp x)
  | Zneg m => S754_finite true m (Fexp x)
  end.

(** * Properties *)

(** ** Rounding *)

Lemma pow2_pos (e : Z) : (0 < pow2 e)%Q.
Proof.
  destruct e as [|p|p]; unfold pow2; try reflexivity.
  change 0%Q with (inject_Z 0). rewrite <- Zlt_Qlt.
  apply Z.pow_pos_nonneg; lia.
Qed.

Lemma pow2_nonneg_exp (e : Z) : 0 <= e -> pow2 e = inject_Z (2 ^ e).
Proof.
  destruct e as [|p|p]; intros He; try reflexivity. lia.
Qed.

Lemma pow2_neg_exp (e : Z) : e < 0 -> pow2 e = (1 # Z.to_pos (2 ^ (- e)))%Q.
Proof.
  destruct e as [|p|p]; intros He; try lia.
  simpl pow2. f_equal.
  change (- Z.neg p) with (Z.pos p).
  rewrite <- Pos2Z.inj_pow. reflexivity.
Qed.

Lemma B2Q_nonneg_exp (m e : Z) :
  0 <= e -> (B2Q (Float m e) == inject_Z (m * 2 ^ e))%Q.
Proof.
  intros He. unfold B2Q; simpl. rewrite pow2_nonneg_exp by assumption.
  rewrite inject_Z_mult. reflexivity.
Qed.

Lemma B2Q_neg_exp (m e : Z) :
  e < 0 -> (B2Q (Float m e) == m # Z.to_pos (2 ^ (- e)))%Q.
Proof.
  intros He. unfold B2Q; simpl. rewrite pow2_neg_exp by assumption.
  unfold Qeq, Qmult; simpl. lia.
Qed.

Lemma Zpos_to_pos_pow2 (k : Z) : 0 <= k -> Z.pos (Z.to_pos (2 ^ k)) = 2 ^ k.
Proof.
  intros Hk. apply Z2Pos.id. apply Z.pow_pos_nonneg; lia.
Qed.

Lemma pow2_mul_opp (e : Z) : (pow2 e * pow2 (- e) == 1)%Q.
Proof.
  destruct e as [|p|p]; [reflexivity | |];
    unfold pow2; cbn [Z.opp]; unfold Qeq, Qmult; cbn [Qnum Qden inject_Z];
    rewrite Pos2Z.inj_mul, Pos2Z.inj_pow; lia.
Qed.

(** ** The base sequence *)

(** On a positive float the floor division of [sympy_floordiv] is a floor
    division of integers. *)
Lemma sympy_floordiv_neg_exp (F m e : Z) :
  0 < m -> e <= 0 ->
  sympy_floordiv F (Float m e) = Ok (F * 2 ^ (- e) / m).
Proof.
  intros Hm He. unfold sympy_floordiv, is_zero. cbn [Fnum].
  destruct (Z.eqb_spec m 0) as [->|_]; [lia|]. f_equal.
  rewrite Zdiv_Qdiv. apply Qfloor_comp.
  unfold B2Q; cbn [Fnum Fexp].
  assert (Hp : (pow2 e == / inject_Z (2 ^ (- e)))%Q).
  { pose proof (pow2_mul_opp e) as H.
    rewrite (pow2_nonneg_exp (- e)) in H by lia.
    assert (H2 : ~ (inject_Z (2 ^ (- e)) == 0)%Q).
    { change 0%Q with (inject_Z 0). rewrite inject_Z_injective.
      apply Z.pow_nonzero; lia. }
    apply (Qmult_inj_r _ _ (inject_Z (2 ^ (- e)))); [assumption|].
    rewrite H. field. assumption. }
  rewrite Hp, inject_Z_mult.
  assert (H2 : ~ (inject_Z (2 ^ (- e)) == 0)%Q).
  { change 0%Q with (inject_Z 0). rewrite inject_Z_injective.
    apply Z.pow_nonzero; lia. }
  assert (H3 : ~ (inject_Z m == 0)%Q).
  { change 0%Q with (inject_Z 0). rewrite inject_Z_injective. lia. }
  field. split; assumption.
Qed.

Lemma sympy_floordiv_pos_exp (F m e : Z) :
  0 < m -> 0 <= e ->
  sympy_floordiv F (Float m e) = Ok (F / (m * 2 ^ e)).
Proof.
  intros Hm He. unfold sympy_floordiv, is_zero. cbn [Fnum].
  destruct (Z.eqb_spec m 0) as [->|_]; [lia|]. f_equal.
  rewrite Zdiv_Qdiv. apply Qfloor_comp.
  rewrite B2Q_nonneg_exp by assumption. reflexivity.
Qed.

Lemma B2Q_sq_neg_exp (k e : Z) :
  e < 0 ->
  (B2Q (Float k e) * B2Q (Float k e)
   == inject_Z (k * k) / inject_Z (2 ^ (- e) * 2 ^ (- e)))%Q.
Proof.
  intros He. rewrite B2Q_neg_exp by assumption.
  unfold Qeq, Qmult, Qdiv, Qinv; cbn [Qnum Qden inject_Z].
  assert (H : 0 < 2 ^ (- e)) by (apply Z.pow_pos_nonneg; lia).
  destruct (2 ^ (- e) * 2 ^ (- e)) as [|p|p] eqn:E; try lia.
  unfold Qmult; cbn [Qnum Qden inject_Z].
  rewrite Pos.mul_1_l, Pos2Z.inj_mul, !Zpos_to_pos_pow2, E by lia. lia.
Qed.

Lemma B2Q_sq_nonneg_exp (k e : Z) :
  0 <= e ->
  (B2Q (Float k e) * B2Q (Float k e)
   == inject_Z (k * 2 ^ e * (k * 2 ^ e)))%Q.
Proof.
  intros He. rewrite B2Q_nonneg_exp by assumption.
  rewrite <- inject_Z_mult. reflexivity.
Qed.

(** The accuracy condition, on integers. *)
Lemma pow15_accurate_neg_exp (n m e : Z) :
  e < 0 ->
  pow15_accurate n (Float m e) <->
  2 ^ 52 <= m < 2 ^ 53 /\
  (m - 1) * (m - 1) < n ^ 3 * (2 ^ (- e) * 2 ^ (- e)) < (m + 1) * (m + 1).
Proof.
  intros He. unfold pow15_accurate; cbn [Fnum Fexp].
  rewrite !B2Q_sq_neg_exp by assumption.
  assert (H : 0 < 2 ^ (- e) * 2 ^ (- e)).
  { apply Z.mul_pos_pos; apply Z.pow_pos_nonneg; lia. }
  assert (HQ : (0 < inject_Z (2 ^ (- e) * 2 ^ (- e)))%Q).
  { change 0%Q with (inject_Z 0). rewrite <- Zlt_Qlt. assumption. }
  split.
  - intros (Hm & H1 & H2). split; [assumption|].
    split.
    + apply (Qmult_lt_r _ _ _ HQ) in H1.
      unfold Qdiv in H1. rewrite <- Qmult_assoc, (Qmult_comm (/ _)) in H1.
      rewrite Qmult_inv_r, Qmult_1_r in H1 by (apply Qnot_eq_sym, Qlt_not_eq, HQ).
      rewrite <- inject_Z_mult, <- Zlt_Qlt in H1. exact H1.
    + apply (Qmult_lt_r _ _ _ HQ) in H2.
      unfold Qdiv in H2. rewrite <- Qmult_assoc, (Qmult_comm (/ _)) in H2.
      rewrite Qmult_inv_r, Qmult_1_r in H2 by (apply Qnot_eq_sym, Qlt_not_eq, HQ).
      rewrite <- inject_Z_mult, <- Zlt_Qlt in H2. exact H2.
  - intros (Hm & H1 & H2). split; [assumption|]. split.
    + apply Qlt_shift_div_r; [assumption|].
      rewrite <- inject_Z_mult, <- Zlt_Qlt. exact H1.
    + apply Qlt_shift_div_l; [assumption|].
      rewrite <- inject_Z_mult, <- Zlt_Qlt. exact H2.
Qed.

Lemma pow15_accurate_nonneg_exp (n m e : Z) :
  0 <= e ->
  pow15_accurate n (Float m e) <->
  2 ^ 52 <= m < 2 ^ 53 /\
  (m - 1) * 2 ^ e * ((m - 1) * 2 ^ e) < n ^ 3
    < (m + 1) * 2 ^ e * ((m + 1) * 2 ^ e).
Proof.
  intros He. unfold pow15_accurate; cbn [Fnum Fexp].
  rewrite !B2Q_sq_nonneg_exp by assumption.
  rewrite <- !Zlt_Qlt. reflexivity.
Qed.

(** The accuracy condition on the fraction [A / B = n^3 / 4^e] that
    [pow15_cr] works on. *)
Lemma pow15_accurate_scale (n m e A B : Z) :
  scale (n ^ 3) 1 (- (2 * e)) = (A, B) ->
  0 < B /\
  (pow15_accurate n (Float m e) <->
   2 ^ 52 <= m < 2 ^ 53 /\
   (m - 1) * (m - 1) * B < A < (m + 1) * (m + 1) * B).
Proof.
  unfold scale. intros Hs.
  destruct (Z.leb_spec 0 (- (2 * e))) as [He|He].
  - apply pair_equal_spec in Hs; destruct Hs as [<- <-]. split; [lia|].
    destruct (Z.eq_dec e 0) as [->|Hne].
    + rewrite pow15_accurate_nonneg_exp by lia.
      change (- (2 * 0)) with 0. rewrite !Z.pow_0_r. split; intros; lia.
    + rewrite pow15_accurate_neg_exp by lia.
      replace (- (2 * e)) with (- e + - e) by lia.
      rewrite Z.pow_add_r by lia. split; intros; lia.
  - apply pair_equal_spec in Hs; destruct Hs as [<- <-].
    replace (- - (2 * e)) with (e + e) by lia.
    rewrite Z.pow_add_r by lia.
    assert (H2 : 0 < 2 ^ e) by (apply Z.pow_pos_nonneg; lia).
    split; [nia|].
    rewrite pow15_accurate_nonneg_exp by lia.
    split; intros (Hm & H); (split; [assumption|]); nia.
Qed.

Lemma sqrt_fraction (A B : Z) :
  0 <= A -> 0 < B ->
  let s := Z.sqrt (A / B) in s * s * B <= A < (s + 1) * (s + 1) * B.
Proof.
  intros HA HB s.
  assert (HY : 0 <= A / B) by (apply Z.div_pos; lia).
  pose proof (Z.sqrt_spec (A / B) HY) as Hs. fold s in Hs.
  pose proof (Z.mul_div_le A B HB) as H1.
  pose proof (Z.mul_succ_div_gt A B HB) as H2.
  unfold Z.succ in *. generalize dependent (A / B). intros Y HY Hs H1 H2.
  split.
  - apply Z.le_trans with (B * Y); [|assumption].
    rewrite (Z.mul_comm B). apply Z.mul_le_mono_nonneg_r; lia.
  - apply Z.lt_le_trans with (B * (Y + 1)); [assumption|].
    rewrite (Z.mul_comm B). apply Z.mul_le_mono_nonneg_r; lia.
Qed.

(** The correctly rounded power is accurate. *)
Lemma pow15_cr_accurate (n : Z) : 1 <= n -> pow15_accurate n (pow15_cr n).
Proof.
  intros Hn. unfold pow15_cr.
  set (X := n ^ 3).
  assert (HX : 0 < X) by (apply Z.pow_pos_nonneg; lia).
  set (e := Z.log2 X / 2 - 52).
  destruct (scale X 1 (- (2 * e))) as [A B] eqn:Hs.
  destruct (pow15_accurate_scale n 0 e A B Hs) as [HB _].
  (* the scaled fraction lies in [2^104, 2^106) *)
  assert (HAB : 2 ^ 104 * B <= A < 2 ^ 106 * B).
  { pose proof (Z.log2_spec X HX) as HL.
    pose proof (Z.log2_nonneg X) as HL0.
    set (L := Z.log2 X) in *.
    assert (Hh : 2 * (L / 2) <= L <= 2 * (L / 2) + 1).
    { pose proof (Z.div_mod L 2 ltac:(lia)).
      pose proof (Z.mod_pos_bound L 2 ltac:(lia)). lia. }
    assert (Hh0 : 0 <= L / 2) by (apply Z.div_pos; lia).
    unfold scale in Hs.
    destruct (Z.leb_spec 0 (- (2 * e))) as [He|He]; apply pair_equal_spec in Hs; destruct Hs as [<- <-].
    - assert (E1 : 2 ^ 104 = 2 ^ (2 * (L / 2)) * 2 ^ (- (2 * e))).
      { rewrite <- Z.pow_add_r by lia. f_equal. unfold e. lia. }
      assert (E2 : 2 ^ 106 = 2 ^ (2 * (L / 2) + 2) * 2 ^ (- (2 * e))).
      { rewrite <- Z.pow_add_r by lia. f_equal. unfold e. lia. }
      assert (0 < 2 ^ (- (2 * e))) by (apply Z.pow_pos_nonneg; lia).
      assert (2 ^ (2 * (L / 2)) <= 2 ^ L) by (apply Z.pow_le_mono_r; lia).
      assert (2 ^ Z.succ L <= 2 ^ (2 * (L / 2) + 2))
        by (apply Z.pow_le_mono_r; lia).
      rewrite E1, E2. nia.
    - replace (- - (2 * e)) with (2 * e) by lia.
      assert (E1 : 2 ^ (2 * (L / 2)) = 2 ^ 104 * 2 ^ (2 * e)).
      { rewrite <- Z.pow_add_r by lia. f_equal. unfold e. lia. }
      assert (E2 : 2 ^ (2 * (L / 2) + 2) = 2 ^ 106 * 2 ^ (2 * e)).
      { rewrite <- Z.pow_add_r by lia. f_equal. unfold e. lia. }
      assert (2 ^ (2 * (L / 2)) <= 2 ^ L) by (apply Z.pow_le_mono_r; lia).
      assert (2 ^ Z.succ L <= 2 ^ (2 * (L / 2) + 2))
        by (apply Z.pow_le_mono_r; lia).
      lia. }
  clearbody e.
  assert (HA : 0 <= A) by nia.
  pose proof (sqrt_fraction A B HA HB) as Hsq. cbv zeta in Hsq.
  set (s := Z.sqrt (A / B)) in *.
  assert (Hs0 : 0 <= s) by apply Z.sqrt_nonneg.
  assert (Hs52 : 2 ^ 52 <= s < 2 ^ 53).
  { change (2 ^ 104) with (2 ^ 52 * 2 ^ 52) in HAB.
    change (2 ^ 106) with (2 ^ 53 * 2 ^ 53) in HAB.
    split.
    - apply Z.lt_succ_r. apply Z.nle_gt. intros Hc.
      assert ((s + 1) * (s + 1) <= 2 ^ 52 * 2 ^ 52) by nia. nia.
    - apply Z.nle_gt. intros Hc.
      assert (2 ^ 53 * 2 ^ 53 <= s * s) by nia. nia. }
  clearbody s.
  set (m := match 4 * A ?= (2 * s + 1) ^ 2 * B with
            | Lt => s
            | Gt => s + 1
            | Eq => if Z.even s then s else s + 1
            end).
  assert (Hm : (m = s /\ 4 * A <= (2 * s + 1) ^ 2 * B) \/
               (m = s + 1 /\ (2 * s + 1) ^ 2 * B <= 4 * A)).
  { unfold m. destruct (Z.compare_spec (4 * A) ((2 * s + 1) ^ 2 * B)) as [E|E|E].
    - destruct (Z.even s); [left|right]; split; lia.
    - left; split; lia.
    - right; split; lia. }
  clearbody m.
  destruct (Z.eqb_spec m (2 ^ 53)) as [Em|Em].
  - (* the rounding carried into the next binade *)
    destruct (scale X 1 (- (2 * (e + 1)))) as [A' B'] eqn:Hs'.
    destruct (pow15_accurate_scale n (2 ^ 52) (e + 1) A' B' Hs') as [HB' ->].
    split; [lia|].
    assert (Hrel : A * B' = 4 * A' * B).
    { unfold scale in Hs, Hs'.
      destruct (Z.leb_spec 0 (- (2 * e))) as [He|He];
        destruct (Z.leb_spec 0 (- (2 * (e + 1)))) as [He'|He'];
        apply pair_equal_spec in Hs; destruct Hs as [<- <-];
        apply pair_equal_spec in Hs'; destruct Hs' as [<- <-]; try lia.
      - replace (- (2 * e)) with (2 + - (2 * (e + 1))) by lia.
        rewrite Z.pow_add_r by lia. change (2 ^ 2) with 4. lia.
      - assert (e = 0) by lia. subst e.
        change (2 ^ (- (2 * 0))) with 1.
        change (2 ^ (- - (2 * (0 + 1)))) with 4. lia.
      - replace (- - (2 * (e + 1))) with (2 + - - (2 * e)) by lia.
        rewrite Z.pow_add_r by lia. change (2 ^ 2) with 4. lia. }
    destruct Hm as [[-> _]|[Es Hm]]; [lia|].
    assert (s = 2 ^ 53 - 1) by lia. subst s.
    destruct Hsq as [_ Hsq].
    split.
    + apply (Z.mul_lt_mono_pos_r (16 * B)); [lia|]. nia.
    + apply (Z.mul_lt_mono_pos_r (4 * B)); [lia|]. nia.
  - destruct (pow15_accurate_scale n m e A B Hs) as [_ ->].
    destruct Hm as [[-> Hm]|[-> Hm]].
    + split; [lia|]. split; nia.
    + split; [lia|]. split; nia.
Qed.


Lemma fib_pair_bounds (k : nat) :
  0 <= fst (fib_pair k) /\ 0 < snd (fib_pair k).
Proof.
  induction k as [|k IH]; simpl; [lia|].
  destruct (fib_pair k) as [a b]; simpl in *. lia.
Qed.

Lemma fibonacci_sympy_nonneg (n : Z) : 0 <= fibonacci_sympy n.
Proof. apply fib_pair_bounds. Qed.



Lemma fibonacci_sympy_init : fibonacci_sympy 1 = 1 /\ fibonacci_sympy 2 = 1.
Proof. split; reflexivity. Qed.

(** [base_exact n - 2] is the floor of the real quotient [F_n / n^1.5]: it is
    the integer [q] with [q <= F_n / sqrt (n^3) < q + 1], squared here. *)
Lemma base_exact_spec (n : Z) :
  1 <= n ->
  let q := base_exact n - 2 in
  let F := fibonacci_sympy n in
  0 <= q /\ q * q * n ^ 3 <= F * F < (q + 1) * (q + 1) * n ^ 3.
Proof.
  intros Hn q F. unfold q, base_exact, base_exact_of. fold F.
  replace (Z.sqrt (F ^ 2 / n ^ 3) + 2 - 2) with (Z.sqrt (F ^ 2 / n ^ 3)) by lia.
  replace (F ^ 2) with (F * F) by (rewrite Z.pow_2_r; reflexivity).
  split; [apply Z.sqrt_nonneg|].
  apply sqrt_fraction.
  - apply Z.mul_nonneg_nonneg; apply fibonacci_sympy_nonneg.
  - apply Z.pow_pos_nonneg; lia.
Qed.

Section BaseSequence.

Variable pow15 : Z -> float.

(** Of the power function, most properties use only that its results are
    positive. *)
Hypothesis pow15_positive : forall n, 1 <= n -> 0 < Fnum (pow15 n).

Lemma base_MFM_floor (n : Z) :
  1 <= n ->
  exists q, base_MFM pow15 n = Ok (q + 2) /\ 0 <= q /\
            sympy_floordiv (fibonacci_sympy n) (pow15 n) = Ok q.
Proof.
  intros Hn. unfold base_MFM.
  destruct (Z.ltb_spec n 1) as [Hlt|_]; [lia|].
  pose proof (pow15_positive n Hn) as Hm.
  pose proof (fibonacci_sympy_nonneg n) as HF.
  destruct (pow15 n) as [m e]; cbn [Fnum] in Hm.
  destruct (Z.le_gt_cases e 0) as [He|He].
  - rewrite sympy_floordiv_neg_exp by lia.
    eexists; split; [reflexivity|]. split; [|reflexivity].
    apply Z.div_pos; [|lia].
    apply Z.mul_nonneg_nonneg; [lia|]. apply Z.pow_nonneg; lia.
  - rewrite sympy_floordiv_pos_exp by lia.
    eexists; split; [reflexivity|]. split; [|reflexivity].
    apply Z.div_pos; [lia|].
    apply Z.mul_pos_pos; [lia|]. apply Z.pow_pos_nonneg; lia.
Qed.

(** [base_MFM] raises on no index. *)
Lemma base_MFM_total (n : Z) : exists v, base_MFM pow15 n = Ok v.
Proof.
  destruct (Z.lt_ge_cases n 1) as [Hn|Hn].
  - exists 2. unfold base_MFM.
    destruct (Z.ltb_spec n 1) as [_|Hge]; [reflexivity|lia].
  - destruct (base_MFM_floor n Hn) as (q & Hq & _).
    exists (q + 2). assumption.
Qed.

(** C9. For every integer [n < 1] the base value is the fallback constant 2,
    returned normally: no exception is raised. *)
Theorem base_MFM_fallback (n : Z) : n < 1 -> base_MFM pow15 n = Ok 2.
Proof.
  intros Hn. unfold base_MFM.
  destruct (Z.ltb_spec n 1) as [_|Hge]; [reflexivity|lia].
Qed.

(** C10. For every integer [n], the fallback range [n < 1] included, the
    base value is returned and is at least 2: the Fibonacci number is not
    negative and the divisor is positive, so the floored quotient is at
    least 0. *)
Theorem base_MFM_ge_2 (n : Z) : exists v, base_MFM pow15 n = Ok v /\ 2 <= v.
Proof.
  destruct (Z.lt_ge_cases n 1) as [Hn|Hn].
  - exists 2. split; [|lia]. unfold base_MFM.
    destruct (Z.ltb_spec n 1) as [_|Hge]; [reflexivity|lia].
  - destruct (base_MFM_floor n Hn) as (q & Hq & Hq0 & _).
    exists (q + 2). split; [assumption|lia].
Qed.

End BaseSequence.

(** C8. [base_MFM 1 = 3] and [base_MFM 10 = 3], whatever power function of
    the stated accuracy computes [1 ** 1.5] and [10 ** 1.5]. *)
Theorem base_MFM_1_and_10 (pow15 : Z -> float) :
  pow15_accurate 1 (pow15 1) -> pow15_accurate 10 (pow15 10) ->
  base_MFM pow15 1 = Ok 3 /\ base_MFM pow15 10 = Ok 3.
Proof.
  intros H1 H10. unfold base_MFM.
  change (1 <? 1) with false. change (10 <? 1) with false. cbv iota.
  change (fibonacci_sympy 1) with 1. change (fibonacci_sympy 10) with 55.
  split.
  - destruct (pow15 1) as [m e].
    destruct (Z.lt_ge_cases e 0) as [He|He].
    + apply pow15_accurate_neg_exp in H1; [|assumption].
      destruct H1 as (Hm & Hlo & Hhi).
      rewrite sympy_floordiv_neg_exp by lia.
      assert (HK : 0 < 2 ^ (- e)) by (apply Z.pow_pos_nonneg; lia).
      assert (E : 2 ^ (- e) = m) by nia.
      rewrite E, Z.mul_1_l, Z.div_same by lia. reflexivity.
    + apply pow15_accurate_nonneg_exp in H1; [|assumption].
      destruct H1 as (Hm & Hlo & Hhi).
      assert (HK : 0 < 2 ^ e) by (apply Z.pow_pos_nonneg; lia).
      exfalso. nia.
  - destruct (pow15 10) as [m e].
    destruct (Z.lt_ge_cases e 0) as [He|He].
    + apply pow15_accurate_neg_exp in H10; [|assumption].
      destruct H10 as (Hm & Hlo & Hhi).
      rewrite sympy_floordiv_neg_exp by lia.
      assert (HK : 0 < 2 ^ (- e)) by (apply Z.pow_pos_nonneg; lia).
      change (10 ^ 3) with 1000 in *.
      assert (Hl : 31 * 2 ^ (- e) <= m) by nia.
      assert (Hu : m <= 32 * 2 ^ (- e)) by nia.
      replace (55 * 2 ^ (- e) / m) with 1; [reflexivity|].
      apply Z.div_unique with (55 * 2 ^ (- e) - m); lia.
    + apply pow15_accurate_nonneg_exp in H10; [|assumption].
      destruct H10 as (Hm & Hlo & Hhi).
      assert (HK : 0 < 2 ^ e) by (apply Z.pow_pos_nonneg; lia).
      exfalso. change (10 ^ 3) with 1000 in *. nia.
Qed.

(** *** The last index of the default range *)

Lemma base_MFM_unfold (pow15 : Z -> float) (n : Z) :
  1 <= n ->
  base_MFM pow15 n =
  match sympy_floordiv (fibonacci_sympy n) (pow15 n) with
  | Ok q => Ok (q + 2)
  | Raise e => Raise e
  end.
Proof.
  intros Hn. unfold base_MFM.
  destruct (Z.ltb_spec n 1) as [Hlt|_]; [lia|reflexivity].
Qed.

(** What the test [far_from_exact] establishes, for any positive canonical
    float [d] as the divisor. *)
Lemma floordiv_far (F q k : Z) (d : float) :
  0 <= F -> 1 <= k ->
  F * 2 ^ (k - 1) / 2 ^ 52 < q - 1 ->
  q + 1 < F * 2 ^ (k + 1) / 2 ^ 53 ->
  F * 2 ^ k < (q - 1) * (F * 2 ^ k / (q + 2) + 1) ->
  1 < q ->
  2 ^ 52 <= Fnum d < 2 ^ 53 ->
  exists w, sympy_floordiv F d = Ok w /\ 1 < Z.abs (w - q).
Proof.
  intros HF Hk Hup Hdown Hmid Hq Hm.
  destruct d as [m e]; cbn [Fnum] in Hm.
  destruct (Z.le_gt_cases e 0) as [He|He].
  - rewrite sympy_floordiv_neg_exp by lia.
    eexists; split; [reflexivity|].
    set (w := F * 2 ^ (- e) / m).
    destruct (Z.lt_trichotomy e (- k)) as [Hlt|[->|Hgt]].
    + (* a float of a binade below *)
      assert (2 ^ (k + 1) <= 2 ^ (- e)) by (apply Z.pow_le_mono_r; lia).
      assert (0 < 2 ^ (k + 1)) by (apply Z.pow_pos_nonneg; lia).
      assert (F * 2 ^ (k + 1) / 2 ^ 53 <= w).
      { unfold w. apply Z.le_trans with (F * 2 ^ (k + 1) / m).
        - apply Z.div_le_compat_l; [|lia]. apply Z.mul_nonneg_nonneg; lia.
        - apply Z.div_le_mono; [lia|]. apply Z.mul_le_mono_nonneg_l; lia. }
      lia.
    + (* a float of the binade itself *)
      assert (Hw : m * w <= F * 2 ^ k < m * (w + 1)).
      { pose proof (Z.mul_div_le (F * 2 ^ k) m ltac:(lia)).
        pose proof (Z.mul_succ_div_gt (F * 2 ^ k) m ltac:(lia)).
        unfold w. rewrite Z.opp_involutive. lia. }
      clearbody w.
      destruct (Z.le_gt_cases (Z.abs (w - q)) 1) as [Hc|Hc]; [|lia].
      exfalso. clear Hup Hdown.
      set (A := F * 2 ^ k) in *. clearbody A.
      assert (H1 : (q - 1) * m <= A) by nia.
      assert (H2 : A < (q + 2) * m) by nia.
      assert (H3 : A / (q + 2) + 1 <= m).
      { apply Z.lt_succ_r. unfold Z.succ.
        apply Z.add_lt_mono_r. apply Z.div_lt_upper_bound; lia. }
      assert (H4 : (q - 1) * (A / (q + 2) + 1) <= (q - 1) * m)
        by (apply Z.mul_le_mono_nonneg_l; lia).
      lia.
    + (* a float of a binade above *)
      assert (2 ^ (- e) <= 2 ^ (k - 1)) by (apply Z.pow_le_mono_r; lia).
      assert (0 < 2 ^ (- e)) by (apply Z.pow_pos_nonneg; lia).
      assert (w <= F * 2 ^ (k - 1) / 2 ^ 52).
      { unfold w. apply Z.le_trans with (F * 2 ^ (k - 1) / m).
        - apply Z.div_le_mono; [lia|]. apply Z.mul_le_mono_nonneg_l; lia.
        - apply Z.div_le_compat_l; [|lia]. apply Z.mul_nonneg_nonneg; lia. }
      lia.
  - rewrite sympy_floordiv_pos_exp by lia.
    eexists; split; [reflexivity|].
    clear Hmid Hdown.
    assert (0 < 2 ^ e) by (apply Z.pow_pos_nonneg; lia).
    assert (0 < 2 ^ (k - 1)) by (apply Z.pow_pos_nonneg; lia).
    assert (F / (m * 2 ^ e) <= F * 2 ^ (k - 1) / 2 ^ 52).
    { clear Hup. apply Z.le_trans with (F / 2 ^ 52).
      - apply Z.div_le_compat_l; [assumption|]. nia.
      - apply Z.div_le_mono; [reflexivity|]. nia. }
    lia.
Qed.

(** At an index that passes the test, [base_MFM] misses the exact base
    value by more than 1, whatever positive float the power is. *)
Lemma base_MFM_far (pow15 : Z -> float) (n k : Z) :
  1 <= n -> 1 <= k ->
  far_from_exact n k = true ->
  2 ^ 52 <= Fnum (pow15 n) < 2 ^ 53 ->
  exists v, base_MFM pow15 n = Ok v /\ 1 < Z.abs (v - base_exact n).
Proof.
  intros Hn Hk Hfar Hm. unfold far_from_exact in Hfar. cbv zeta in Hfar.
  fold (base_exact n) in Hfar.
  rewrite !andb_true_iff, !Z.ltb_lt in Hfar.
  destruct Hfar as (((Hup & Hdown) & Hmid) & Hq).
  destruct (floordiv_far _ _ _ _ (fibonacci_sympy_nonneg n) Hk
              Hup Hdown Hmid Hq Hm) as (w & Hw & Hfar).
  exists (w + 2). split.
  - rewrite base_MFM_unfold by assumption. rewrite Hw. reflexivity.
  - replace (w + 2 - base_exact n) with (w - (base_exact n - 2)) by ring.
    exact Hfar.
Qed.

(** C1. At the index 5000 the value of [base_MFM] is not
    [floor (F_n / n^1.5) + 2]: whatever positive binary64 number stands for
    [5000 ** 1.5], the floored quotient misses the exact one by more
    than 1. *)
Theorem base_MFM_5000_not_exact (pow15 : Z -> float) :
  2 ^ 52 <= Fnum (pow15 5000) < 2 ^ 53 ->
  exists v, base_MFM pow15 5000 = Ok v /\ 1 < Z.abs (v - base_exact 5000).
Proof.
  apply (base_MFM_far pow15 5000 34); [discriminate | discriminate |].
  vm_compute. reflexivity.
Qed.

(** ** Primality *)

Lemma isprime_candidates (x d : Z) :
  In d (map (fun i => 2 + Z.of_nat i) (seq 0 (Z.to_nat (Z.sqrt x - 1))))
  <-> 2 <= d <= Z.sqrt x.
Proof.
  rewrite in_map_iff. split.
  - intros (i & <- & Hi). apply in_seq in Hi. lia.
  - intros Hd. exists (Z.to_nat (d - 2)). split; [lia|].
    apply in_seq. lia.
Qed.

Lemma sympy_isprime_spec (x : Z) :
  sympy_isprime x = true <-> forall d, 2 <= d <= Z.sqrt x -> ~ (d | x).
Proof.
  unfold sympy_isprime. rewrite forallb_forall. split.
  - intros H d Hd Hdiv.
    specialize (H d (proj2 (isprime_candidates x d) Hd)).
    apply negb_true_iff, Z.eqb_neq in H. apply H.
    apply Z.mod_divide; [lia|assumption].
  - intros H d Hd. apply isprime_candidates in Hd.
    apply negb_true_iff, Z.eqb_neq. intros Hmod.
    apply (H d Hd). apply Z.mod_divide; [lia|assumption].
Qed.

(** [is_prime_pythonic] decides primality, on every integer. *)
Lemma is_prime_pythonic_correct (x : Z) :
  is_prime_pythonic x = true <-> Z.prime x.
Proof.
  unfold is_prime_pythonic.
  destruct (Z.ltb_spec x 2) as [Hx|Hx].
  - split; [discriminate|]. intros [H _]. lia.
  - rewrite sympy_isprime_spec. unfold Z.prime. split.
    + intros H. split; [lia|]. intros n Hn Hdiv.
      destruct Hdiv as [c Hc].
      assert (Hc1 : 1 < c) by nia.
      destruct (Z.le_gt_cases (n * n) x) as [Hle|Hgt].
      * apply (H n).
        -- split; [lia|]. apply Z.sqrt_le_square; lia.
        -- exists c; assumption.
      * apply (H c).
        -- split; [lia|]. apply Z.sqrt_le_square; nia.
        -- exists n. lia.
    + intros [_ H] d Hd. apply H.
      pose proof (Z.sqrt_lt_lin x ltac:(lia)). lia.
Qed.

(** C4. On every integer of [[-5, 30]], [is_prime_pythonic] agrees with
    primality: it is false below 2, and true exactly on
    2, 3, 5, 7, 11, 13, 17, 19, 23 and 29. *)
Theorem is_prime_pythonic_small (x : Z) :
  -5 <= x <= 30 ->
  (is_prime_pythonic x = true <-> Z.prime x) /\
  (x < 2 -> is_prime_pythonic x = false) /\
  (is_prime_pythonic x = true <-> In x small_primes).
Proof.
  intros Hx. split; [apply is_prime_pythonic_correct|]. split.
  - intros Hlt. unfold is_prime_pythonic.
    destruct (Z.ltb_spec x 2); [reflexivity|lia].
  - assert (Hall : forallb (fun y => Bool.eqb (is_prime_pythonic y)
                                       (existsb (Z.eqb y) small_primes))
                           (np_arange (-5) 31) = true) by reflexivity.
    rewrite forallb_forall in Hall.
    assert (Hin : In x (np_arange (-5) 31)).
    { unfold np_arange. apply in_map_iff. exists (Z.to_nat (x + 5)).
      split; [lia|]. apply in_seq. lia. }
    specialize (Hall x Hin). apply eqb_prop in Hall. rewrite Hall.
    rewrite existsb_exists. split.
    + intros (y & Hy & E). apply Z.eqb_eq in E. subst y. assumption.
    + intros H. exists x. split; [assumption|apply Z.eqb_refl].
Qed.

(** ** Rounding to nearest *)

Lemma rne_spec (a b : Z) :
  0 < b -> - b <= 2 * (b * rne a b - a) <= b.
Proof.
  intros Hb. unfold rne.
  pose proof (Z.div_mod a b ltac:(lia)) as Hd.
  pose proof (Z.mod_pos_bound a b Hb) as Hr.
  destruct (Z.compare_spec (2 * (a mod b)) b) as [E|E|E];
    [destruct (Z.even (a / b))| |]; nia.
Qed.

Lemma rne_le (a b k : Z) : 0 < b -> a <= k * b -> rne a b <= k.
Proof.
  intros Hb Hk. unfold rne.
  pose proof (Z.div_mod a b ltac:(lia)) as Hd.
  pose proof (Z.mod_pos_bound a b Hb) as Hr.
  assert (Hq : a / b <= k) by nia.
  destruct (Z.compare_spec (2 * (a mod b)) b) as [E|E|E];
    [destruct (Z.even (a / b))| |]; try lia;
    (destruct (Z.eq_dec (a / b) k) as [Ek|Ek]; [nia|lia]).
Qed.

Lemma rne_ge (a b k : Z) : 0 < b -> k * b <= a -> k <= rne a b.
Proof.
  intros Hb Hk. unfold rne.
  pose proof (Z.div_mod a b ltac:(lia)) as Hd.
  pose proof (Z.mod_pos_bound a b Hb) as Hr.
  assert (Hq : k <= a / b) by (apply Z.div_le_lower_bound; lia).
  destruct (2 * (a mod b) ?= b); [destruct (Z.even (a / b))| |]; lia.
Qed.

Lemma rne_nonneg (a b : Z) : 0 < b -> 0 <= a -> 0 <= rne a b.
Proof.
  intros Hb Ha. unfold rne.
  assert (Hq : 0 <= a / b) by (apply Z.div_pos; lia).
  destruct (2 * (a mod b) ?= b); [destruct (Z.even (a / b))| |]; lia.
Qed.

Lemma rne_integer (a : Z) : rne a 1 = a.
Proof.
  unfold rne. rewrite Z.mod_1_r, Z.div_1_r. reflexivity.
Qed.

Lemma ilog2_le_0 (a b : Z) : 0 < a <= b -> ilog2 a b <= 0.
Proof.
  intros Hab. unfold ilog2.
  assert (H : Z.log2 a <= Z.log2 b) by (apply Z.log2_le_mono; lia).
  destruct (scale a b (- (Z.log2 a - Z.log2 b))) as [a' b'].
  destruct (a' <? b'); lia.
Qed.

Lemma ilog2_integer (a : Z) : 0 < a -> ilog2 a 1 = Z.log2 a.
Proof.
  intros Ha. unfold ilog2, scale. change (Z.log2 1) with 0.
  rewrite Z.sub_0_r.
  pose proof (Z.log2_spec a Ha) as [Hl _].
  pose proof (Z.log2_nonneg a) as H0.
  destruct (Z.leb_spec 0 (- Z.log2 a)) as [H|H].
  - assert (E : Z.log2 a = 0) by lia. rewrite E in *.
    change (- 0) with 0. rewrite Z.pow_0_r.
    destruct (Z.ltb_spec (a * 1) 1); lia.
  - rewrite Z.opp_involutive, Z.mul_1_l.
    destruct (Z.ltb_spec a (2 ^ Z.log2 a)); lia.
Qed.

(** Integers below [2^53] are binary64 numbers. *)
Lemma of_Z_exact (n : Z) : 0 <= n < 2 ^ 53 -> (B2Q (of_Z n) == inject_Z n)%Q.
Proof.
  intros Hn. unfold of_Z, round. cbn [inject_Z Qnum Qden].
  destruct n as [|p|p]; [reflexivity| |lia].
  unfold round_pos. rewrite ilog2_integer by lia.
  pose proof (Z.log2_spec (Z.pos p) ltac:(lia)) as [Hl Hu].
  pose proof (Z.log2_nonneg (Z.pos p)) as H0.
  set (l := Z.log2 (Z.pos p)) in *.
  assert (Hl52 : l <= 52).
  { apply Z.lt_succ_r. apply (Z.pow_lt_mono_r_iff 2); lia. }
  unfold scale. destruct (Z.leb_spec 0 (52 - l)) as [_|H]; [|lia].
  rewrite rne_integer.
  assert (Hs : 0 < 2 ^ (52 - l)) by (apply Z.pow_pos_nonneg; lia).
  assert (Hm : Z.pos p * 2 ^ (52 - l) < 2 ^ 53).
  { replace 53 with (Z.succ l + (52 - l)) by lia.
    rewrite Z.pow_add_r by lia. nia. }
  destruct (Z.eqb_spec (Z.pos p * 2 ^ (52 - l)) (2 ^ 53)) as [E|_]; [lia|].
  destruct (Z.eq_dec l 52) as [E|E].
  - rewrite E. change (52 - 52) with 0.
    rewrite B2Q_nonneg_exp by lia. rewrite !Z.pow_0_r, !Z.mul_1_r. reflexivity.
  - rewrite B2Q_neg_exp by lia.
    unfold Qeq; cbn [Qnum Qden inject_Z].
    replace (- (l - 52)) with (52 - l) by lia.
    rewrite Zpos_to_pos_pow2 by lia. lia.
Qed.

(** The conversion of a positive integer, of any size, is not zero. *)
Lemma of_Z_nonzero (n : Z) : 1 <= n -> is_zero (of_Z n) = false.
Proof.
  intros Hn. unfold of_Z, round. cbn [inject_Z Qnum Qden].
  destruct n as [|p|p]; try lia.
  unfold round_pos. rewrite ilog2_integer by lia.
  pose proof (Z.log2_spec (Z.pos p) ltac:(lia)) as [Hl Hu].
  pose proof (Z.log2_nonneg (Z.pos p)) as H0.
  set (l := Z.log2 (Z.pos p)) in *.
  assert (Hm : forall m, 1 <= m ->
            is_zero (if m =? 2 ^ 53 then Float (2 ^ 52) (l - 51)
                     else Float m (l - 52)) = false).
  { intros m Hm1. destruct (m =? 2 ^ 53); unfold is_zero; cbn [Fnum];
      [reflexivity|]. apply Z.eqb_neq. lia. }
  unfold scale. destruct (Z.leb_spec 0 (52 - l)) as [Hs|Hs].
  - apply Hm. rewrite rne_integer.
    assert (0 < 2 ^ (52 - l)) by (apply Z.pow_pos_nonneg; lia). nia.
  - apply Hm. apply rne_ge.
    + rewrite Z.mul_1_l. apply Z.pow_pos_nonneg; lia.
    + rewrite !Z.mul_1_l. apply Z.le_trans with (2 ^ l); [|assumption].
      apply Z.pow_le_mono_r; lia.
Qed.

(** Rounding a rational of [[0, 1]]: the result stays in [[0, 1]] and is
    within [2^-53] of the rational. *)
Lemma round_unit_interval (q : Q) :
  (0 <= q <= 1)%Q ->
  (0 <= B2Q (round q) <= 1)%Q /\
  (Qabs (B2Q (round q) - q) <= 1 # 2 ^ 53)%Q.
Proof.
  destruct q as [a b]. intros [H0 H1].
  unfold Qle in H0, H1; cbn [Qnum Qden] in H0, H1.
  unfold round; cbn [Qnum Qden].
  destruct a as [|a|a]; [| |lia].
  - split; [split; discriminate|]. discriminate.
  - unfold round_pos.
    pose proof (ilog2_le_0 (Z.pos a) (Z.pos b) ltac:(lia)) as Hl.
    set (l := ilog2 (Z.pos a) (Z.pos b)) in *. clearbody l.
    unfold scale. destruct (Z.leb_spec 0 (52 - l)) as [_|H]; [|lia].
    set (P := 2 ^ (52 - l)).
    assert (HP : 2 ^ 52 <= P) by (apply Z.pow_le_mono_r; lia).
    assert (HPpos : Z.pos (Z.to_pos P) = P)
      by (apply Zpos_to_pos_pow2; lia).
    pose proof (rne_spec (Z.pos a * P) (Z.pos b) ltac:(lia)) as Herr.
    pose proof (rne_le (Z.pos a * P) (Z.pos b) P ltac:(lia) ltac:(nia)) as Hle.
    pose proof (rne_nonneg (Z.pos a * P) (Z.pos b) ltac:(lia) ltac:(nia))
      as Hge.
    set (m := rne (Z.pos a * P) (Z.pos b)) in *. clearbody m.
    assert (Hv : (B2Q (if m =? 2 ^ 53 then Float (2 ^ 52) (l - 51)
                       else Float m (l - 52)) == m # Z.to_pos P)%Q).
    { destruct (Z.eqb_spec m (2 ^ 53)) as [E|_].
      - assert (Hl1 : l <= -1).
        { assert (Hlt : 53 <= 52 - l); [|lia].
          apply (Z.pow_le_mono_r_iff 2); [lia|lia|]. fold P. lia. }
        rewrite B2Q_neg_exp by lia.
        unfold Qeq; cbn [Qnum Qden]. rewrite HPpos, Zpos_to_pos_pow2 by lia.
        subst m. unfold P.
        replace (52 - l) with (1 + (- (l - 51))) by lia.
        rewrite Z.pow_add_r by lia. lia.
      - rewrite B2Q_neg_exp by lia.
        replace (- (l - 52)) with (52 - l) by lia. reflexivity. }
    rewrite Hv. split.
    + unfold Qle; cbn [Qnum Qden]. rewrite HPpos. lia.
    + apply Qabs_Qle_condition.
      unfold Qle, Qminus, Qplus, Qopp; cbn [Qnum Qden].
      rewrite Pos2Z.inj_mul, HPpos.
      change (Z.pos (2 ^ 53)) with (2 ^ 53).
      change (2 ^ 53) with (2 * 2 ^ 52) in *. nia.
Qed.

(** ** The experiment harness *)

Lemma consume_0 (w : World) : consume w 0 = w.
Proof. destruct w; unfold consume; simpl. rewrite Nat.add_0_r. reflexivity. Qed.

Lemma zip_with_length {A B C : Type} (f : A -> B -> C) (l : list A)
    (l' : list B) :
  length (zip_with f l l') = Nat.min (length l) (length l').
Proof.
  revert l'. induction l as [|a l IH]; intros [|b l']; simpl; auto.
Qed.

Lemma map_result_length {A B : Type} (f : A -> result B) (l : list A)
    (bs : list B) :
  map_result f l = Ok bs -> length bs = length l.
Proof.
  revert bs. induction l as [|a l IH]; simpl; intros bs H.
  - injection H as <-. reflexivity.
  - destruct (f a) as [b|e]; [|discriminate].
    destruct (map_result f l) as [bs'|e]; [|discriminate].
    injection H as <-. simpl. f_equal. apply IH. reflexivity.
Qed.

Lemma map_result_total {A B : Type} (f : A -> result B) (l : list A) :
  (forall a, exists b, f a = Ok b) -> exists bs, map_result f l = Ok bs.
Proof.
  intros Hf. induction l as [|a l [bs IH]]; simpl.
  - eexists; reflexivity.
  - destruct (Hf a) as [b ->]. rewrite IH. eexists; reflexivity.
Qed.

Lemma py_sum_acc (flags : list bool) (acc : Z) :
  fold_left (fun a (b : bool) => a + (if b then 1 else 0)) flags acc
  = acc + Z.of_nat (length (filter (fun b => b) flags)).
Proof.
  revert acc. induction flags as [|b flags IH]; intros acc; simpl.
  - lia.
  - rewrite IH. destruct b; simpl length; lia.
Qed.

(** [sum] counts the flags that are true. *)
Lemma py_sum_count (flags : list bool) :
  py_sum flags = Z.of_nat (length (filter (fun b => b) flags)).
Proof. unfold py_sum. rewrite py_sum_acc. lia. Qed.

Lemma py_sum_bounds (flags : list bool) :
  0 <= py_sum flags <= Z.of_nat (length flags).
Proof.
  rewrite py_sum_count. pose proof (filter_length_le (fun b => b) flags). lia.
Qed.

Lemma np_random_uniform_ok (low high : float) (K : Z) (w : World) :
  0 <= K ->
  np_random_uniform low high K w
  = Ok (map (fun i => fadd low (fmul (fsub high low)
                                     (rng_stream w (rng_pos w + i)%nat)))
            (seq 0 (Z.to_nat K)),
        consume w (Z.to_nat K)).
Proof.
  intros HK. unfold np_random_uniform.
  destruct (Z.ltb_spec K 0); [lia|reflexivity].
Qed.

Lemma correction_loop_ok (np_cos : float -> float) (n_array : list Z) (N : Z)
    (coeffs : list float) (ks : list Z) (corrections : list float) :
  is_zero (of_Z N) = false ->
  length corrections = length n_array ->
  exists c, correction_loop np_cos n_array N coeffs ks corrections = Ok c /\
            length c = length n_array.
Proof.
  intros HN. revert corrections.
  induction ks as [|k ks IH]; intros corrections Hlen; simpl.
  - exists corrections. split; [reflexivity|assumption].
  - unfold py_truediv. rewrite HN. apply IH.
    rewrite zip_with_length, length_map, Hlen. apply Nat.min_id.
Qed.

Lemma correction_fourier_unfold (np_cos : float -> float) (n_array : list Z)
    (K : Z) (w : World) :
  correction_fourier np_cos n_array K w =
  match np_random_uniform (of_Z (-2)) (of_Z 2) K w with
  | Ok (coeffs, w') =>
      match corrections_of np_cos n_array K coeffs with
      | Ok c => Ok (c, w')
      | Raise e => Raise e
      end
  | Raise e => Raise e
  end.
Proof.
  unfold correction_fourier, corrections_of, bind, lift, ret.
  destruct (np_random_uniform (of_Z (-2)) (of_Z 2) K w) as [[coeffs w']|e];
    [|reflexivity].
  destruct (correction_loop _ _ _ _ _ _); reflexivity.
Qed.

Lemma corrections_of_ok (np_cos : float -> float) (n_array : list Z) (K : Z)
    (coeffs : list float) :
  (1 <= length n_array)%nat ->
  exists c, corrections_of np_cos n_array K coeffs = Ok c /\
            length c = length n_array.
Proof.
  intros H1. unfold corrections_of.
  destruct (correction_loop_ok np_cos n_array (Z.of_nat (length n_array))
              coeffs (range K) (repeat zero (length n_array)))
    as (c & -> & Hc).
  - apply of_Z_nonzero. lia.
  - apply repeat_length.
  - exists (map np_round c). split; [reflexivity|].
    rewrite length_map. assumption.
Qed.

Lemma sequence_vals_unfold (pow15 : Z -> float) (np_cos : float -> float)
    (n_values : list Z) (K : Z) (w : World) :
  sequence_vals pow15 np_cos n_values K w =
  match map_result (base_MFM pow15) n_values with
  | Ok base_vals =>
      match correction_fourier np_cos n_values K w with
      | Ok (correction_vals, w') =>
          Ok (zip_with (fun b c => b + py_int c) base_vals correction_vals, w')
      | Raise e => Raise e
      end
  | Raise e => Raise e
  end.
Proof.
  unfold sequence_vals, bind, lift, ret.
  destruct (map_result (base_MFM pow15) n_values); [|reflexivity].
  destruct (correction_fourier np_cos n_values K w) as [[c w']|e]; reflexivity.
Qed.

Lemma run_K_unfold (pow15 : Z -> float) (np_cos : float -> float)
    (n_values : list Z) (K : Z) (w : World) :
  run_K pow15 np_cos n_values K w =
  match sequence_vals pow15 np_cos n_values K (tick w) with
  | Ok (vals, w') =>
      let prime_count := py_sum (map is_prime_pythonic vals) in
      match py_truediv (of_Z prime_count) (of_Z (Z.of_nat (length vals))) with
      | Ok prime_fraction =>
          Ok (mkResult K prime_count prime_fraction
                (fsub (clock w' (clock_pos w')) (clock w (clock_pos w))),
              tick w')
      | Raise e => Raise e
      end
  | Raise e => Raise e
  end.
Proof.
  unfold run_K, bind, lift, ret, time_time.
  destruct (sequence_vals pow15 np_cos n_values K (tick w)) as [[vals w']|e];
    [|reflexivity].
  cbv zeta.
  destruct (py_truediv _ _); reflexivity.
Qed.

Lemma np_arange_length (lo hi : Z) :
  length (np_arange lo hi) = Z.to_nat (hi - lo).
Proof. unfold np_arange. rewrite length_map, length_seq. reflexivity. Qed.

Lemma filter_map_length {A : Type} (f : A -> bool) (l : list A) :
  length (filter (fun b => b) (map f l)) = length (filter f l).
Proof.
  induction l as [|a l IH]; simpl; [reflexivity|].
  destruct (f a); simpl; rewrite IH; reflexivity.
Qed.

Lemma main_loop_app (pow15 : Z -> float) (np_cos : float -> float)
    (n_values Ks1 Ks2 : list Z) (results : list ExperimentResult)
    (times : list float) (w : World) :
  main_loop pow15 np_cos n_values (Ks1 ++ Ks2) results times w =
  match main_loop pow15 np_cos n_values Ks1 results times w with
  | Ok ((results1, times1), w1) =>
      main_loop pow15 np_cos n_values Ks2 results1 times1 w1
  | Raise e => Raise e
  end.
Proof.
  revert results times w.
  induction Ks1 as [|K Ks1 IH]; intros results times w; simpl.
  - reflexivity.
  - unfold bind.
    destruct (run_K pow15 np_cos n_values K w) as [[r w']|e]; [|reflexivity].
    apply IH.
Qed.

Section Harness.

Variable pow15 : Z -> float.
Variable np_cos : float -> float.
Hypothesis pow15_positive : forall n, 1 <= n -> 0 < Fnum (pow15 n).

Lemma base_vals_ok (n_values : list Z) :
  exists base_vals, map_result (base_MFM pow15) n_values = Ok base_vals /\
                    length base_vals = length n_values.
Proof.
  destruct (map_result_total (base_MFM pow15) n_values) as [bs Hbs].
  - apply base_MFM_total. exact pow15_positive.
  - exists bs. split; [assumption|].
    apply map_result_length with (f := base_MFM pow15); assumption.
Qed.

Lemma sequence_vals_ok (n_values : list Z) (K : Z) (w : World) :
  (1 <= length n_values)%nat -> 0 <= K ->
  exists vals,
    sequence_vals pow15 np_cos n_values K w
    = Ok (vals, consume w (Z.to_nat K)) /\
    length vals = length n_values.
Proof.
  intros H1 HK. rewrite sequence_vals_unfold.
  destruct (base_vals_ok n_values) as (bs & -> & Hbs).
  rewrite correction_fourier_unfold, np_random_uniform_ok by assumption.
  match goal with |- context [corrections_of _ _ _ ?cs] =>
    destruct (corrections_of_ok np_cos n_values K cs H1) as (c & -> & Hc)
  end.
  eexists; split; [reflexivity|].
  rewrite zip_with_length, Hbs, Hc. apply Nat.min_id.
Qed.

(** One run over a non-empty index range returns its record. *)
Lemma run_K_ok (n_values : list Z) (K : Z) (w : World) :
  (1 <= length n_values)%nat -> 0 <= K ->
  exists vals,
    sequence_vals pow15 np_cos n_values K (tick w)
    = Ok (vals, consume (tick w) (Z.to_nat K)) /\
    length vals = length n_values /\
    let prime_count := py_sum (map is_prime_pythonic vals) in
    run_K pow15 np_cos n_values K w
    = Ok (mkResult K prime_count
            (fdiv (of_Z prime_count) (of_Z (Z.of_nat (length n_values))))
            (fsub (clock w (S (clock_pos w))) (clock w (clock_pos w))),
          tick (consume (tick w) (Z.to_nat K))).
Proof.
  intros H1 HK.
  destruct (sequence_vals_ok n_values K (tick w) H1 HK)
    as (vals & Hvals & Hlen).
  exists vals. split; [assumption|]. split; [assumption|].
  cbv zeta. rewrite run_K_unfold, Hvals. cbv zeta.
  unfold py_truediv. rewrite Hlen, of_Z_nonzero by lia. reflexivity.
Qed.

Lemma main_loop_ok (n_values Ks : list Z) (results : list ExperimentResult)
    (times : list float) (w : World) :
  (1 <= length n_values)%nat ->
  Forall (fun K => 0 <= K) Ks ->
  exists new w',
    main_loop pow15 np_cos n_values Ks results times w
    = Ok ((results ++ new, times ++ map res_elapsed new), w') /\
    map res_K new = Ks.
Proof.
  intros H1 HKs. revert results times w.
  induction HKs as [|K Ks HK _ IH]; intros results times w; simpl.
  - exists [], w. rewrite !app_nil_r. split; reflexivity.
  - destruct (run_K_ok n_values K w H1 HK) as (vals & _ & _ & Hrun).
    cbv zeta in Hrun. unfold bind. rewrite Hrun.
    match goal with |- context [main_loop _ _ _ _ (results ++ [?r]) _ ?w1] =>
      destruct (IH (results ++ [r]) (times ++ [res_elapsed r]) w1)
        as (new & w' & -> & Hnew);
      exists (r :: new), w'
    end.
    split.
    + simpl. rewrite <- !app_assoc. reflexivity.
    + simpl. rewrite Hnew. reflexivity.
Qed.

(** C7. Over a non-empty index range, and for K values that NumPy accepts
    as array sizes, the harness returns one record per configured K, in the
    configured order, whatever the clock reads; and the records of the
    first runs stay, in place, at the head of the final list: records are
    only appended. *)
Theorem main_results_in_K_order (N_MAX : Z) (K_VALUES : list Z) (w : World) :
  1 <= N_MAX ->
  Forall (fun K => 0 <= K) K_VALUES ->
  exists results times w',
    main pow15 np_cos N_MAX K_VALUES w = Ok ((results, times), w') /\
    map res_K results = K_VALUES /\
    length results = length K_VALUES /\
    forall Ks1 Ks2, K_VALUES = Ks1 ++ Ks2 ->
      exists results1 times1 w1 results2,
        main pow15 np_cos N_MAX Ks1 w = Ok ((results1, times1), w1) /\
        map res_K results1 = Ks1 /\
        results = results1 ++ results2.
Proof.
  intros HN HKs. unfold main.
  set (n_values := np_arange 1 (N_MAX + 1)).
  assert (Hlen : length n_values = Z.to_nat N_MAX).
  { unfold n_values. rewrite np_arange_length. f_equal. lia. }
  assert (H1 : (1 <= length n_values)%nat) by lia.
  destruct (main_loop_ok n_values K_VALUES [] [] w H1 HKs)
    as (results & w' & Hmain & HK).
  exists results, (map res_elapsed results), w'.
  split; [exact Hmain|]. split; [exact HK|]. split.
  - rewrite <- HK. symmetry. apply length_map.
  - intros Ks1 Ks2 E. rewrite E in HKs, Hmain.
    apply Forall_app in HKs. destruct HKs as [HKs1 HKs2].
    destruct (main_loop_ok n_values Ks1 [] [] w H1 HKs1)
      as (results1 & w1 & Hmain1 & HK1).
    simpl app in Hmain1. rewrite main_loop_app, Hmain1 in Hmain.
    destruct (main_loop_ok n_values Ks2 results1 (map res_elapsed results1)
                w1 H1 HKs2) as (results2 & w2 & Hmain2 & HK2).
    rewrite Hmain2 in Hmain.
    exists results1, (map res_elapsed results1), w1, results2.
    split; [exact Hmain1|]. split; [exact HK1|].
    injection Hmain as Eres _ _. symmetry. exact Eres.
Qed.

(** C6. In every run over a non-empty index range of length [N], the
    recorded prime count is the number of corrected values that are prime
    and the recorded prime fraction is the quotient [prime_count / N] of
    Python: one correctly rounded division, whose value lies in [[0, 1]] and
    within [2^-53] of the rational [prime_count / N]. *)
Theorem prime_fraction_is_quotient (N_MAX K : Z) (w : World) :
  1 <= N_MAX < 2 ^ 53 -> 0 <= K ->
  exists r w' vals,
    run_K pow15 np_cos (np_arange 1 (N_MAX + 1)) K w = Ok (r, w') /\
    value_of (sequence_vals pow15 np_cos (np_arange 1 (N_MAX + 1)) K (tick w))
    = Ok vals /\
    Z.of_nat (length vals) = N_MAX /\
    res_prime_count r = Z.of_nat (length (filter is_prime_pythonic vals)) /\
    py_truediv (of_Z (res_prime_count r)) (of_Z N_MAX)
    = Ok (res_prime_fraction r) /\
    (0 <= B2Q (res_prime_fraction r) <= 1)%Q /\
    (Qabs (B2Q (res_prime_fraction r)
           - inject_Z (res_prime_count r) / inject_Z N_MAX) <= 1 # 2 ^ 53)%Q.
Proof.
  intros HN HK.
  set (n_values := np_arange 1 (N_MAX + 1)).
  assert (Hlen : length n_values = Z.to_nat N_MAX).
  { unfold n_values. rewrite np_arange_length. f_equal. lia. }
  assert (H1 : (1 <= length n_values)%nat) by lia.
  destruct (run_K_ok n_values K w H1 HK) as (vals & Hvals & Hvlen & Hrun).
  cbv zeta in Hrun.
  eexists _, _, vals. split; [exact Hrun|].
  rewrite Hvals. split; [reflexivity|].
  split; [lia|].
  cbn [res_prime_count res_prime_fraction].
  replace (Z.of_nat (length n_values)) with N_MAX by lia.
  pose proof (py_sum_bounds (map is_prime_pythonic vals)) as Hc.
  rewrite length_map in Hc.
  set (c := py_sum (map is_prime_pythonic vals)) in *.
  split.
  { unfold c. rewrite py_sum_count, filter_map_length. reflexivity. }
  split.
  { unfold py_truediv. rewrite of_Z_nonzero by lia. reflexivity. }
  assert (Hq : (B2Q (of_Z c) / B2Q (of_Z N_MAX)
                == inject_Z c / inject_Z N_MAX)%Q).
  { rewrite !of_Z_exact by lia. reflexivity. }
  assert (HNQ : (0 < inject_Z N_MAX)%Q).
  { change 0%Q with (inject_Z 0). rewrite <- Zlt_Qlt. lia. }
  assert (Hunit : (0 <= B2Q (of_Z c) / B2Q (of_Z N_MAX) <= 1)%Q).
  { rewrite Hq. split.
    - apply Qle_shift_div_l; [assumption|]. rewrite Qmult_0_l.
      change 0%Q with (inject_Z 0). rewrite <- Zle_Qle. lia.
    - apply Qle_shift_div_r; [assumption|]. rewrite Qmult_1_l.
      rewrite <- Zle_Qle. lia. }
  destruct (round_unit_interval _ Hunit) as [Hin Herr].
  unfold fdiv. set (pf := round (B2Q (of_Z c) / B2Q (of_Z N_MAX))) in *.
  split; [exact Hin|].
  rewrite <- Hq. exact Herr.
Qed.

End Harness.

(** *** No coefficients *)

Lemma zip_with_zero_corrections (base_vals : list Z) :
  zip_with (fun b c => b + py_int c) base_vals
           (repeat zero (length base_vals))
  = base_vals.
Proof.
  induction base_vals as [|b bs IH]; simpl; [reflexivity|].
  rewrite IH. change (py_int zero) with 0. rewrite Z.add_0_r. reflexivity.
Qed.

(** C5. With [K = 0] no coefficient is drawn, the correction is 0 at every
    index, and the corrected values are the base values themselves. *)
Theorem zero_coefficients_no_correction (pow15 : Z -> float)
    (np_cos : float -> float) (n_values : list Z) (w : World) :
  value_of (np_random_uniform (of_Z (-2)) (of_Z 2) 0 w) = Ok [] /\
  value_of (correction_fourier np_cos n_values 0 w)
  = Ok (repeat zero (length n_values)) /\
  value_of (sequence_vals pow15 np_cos n_values 0 w)
  = map_result (base_MFM pow15) n_values.
Proof.
  assert (Hc : correction_fourier np_cos n_values 0 w
               = Ok (repeat zero (length n_values), consume w 0)).
  { rewrite correction_fourier_unfold, np_random_uniform_ok by lia.
    unfold corrections_of. change (range 0) with (@nil Z).
    cbn [correction_loop Z.to_nat seq map].
    rewrite map_repeat. reflexivity. }
  split; [reflexivity|]. split.
  - rewrite Hc. reflexivity.
  - rewrite sequence_vals_unfold, Hc.
    destruct (map_result (base_MFM pow15) n_values) as [bs|e] eqn:E;
      [|reflexivity].
    cbn [value_of]. rewrite <- (map_result_length _ _ _ E).
    rewrite zip_with_zero_corrections. reflexivity.
Qed.

(** *** Degenerate configurations *)

Lemma np_arange_empty (N_MAX : Z) : N_MAX < 1 -> np_arange 1 (N_MAX + 1) = [].
Proof.
  intros H. unfold np_arange.
  replace (Z.to_nat (N_MAX + 1 - 1)) with 0%nat by lia. reflexivity.
Qed.

Lemma run_K_empty_range (pow15 : Z -> float) (np_cos : float -> float)
    (K : Z) (w : World) :
  run_K pow15 np_cos [] K w
  = Raise (if K <? 0 then ValueError else ZeroDivisionError).
Proof.
  rewrite run_K_unfold, sequence_vals_unfold, correction_fourier_unfold.
  cbn [map_result]. unfold np_random_uniform.
  destruct (Z.ltb_spec K 0) as [HK|HK]; [reflexivity|].
  unfold corrections_of, range. cbn [length repeat Z.of_nat].
  destruct (Z.to_nat K) as [|k]; reflexivity.
Qed.

(** C2, as the code has it. With no K value the harness returns the empty
    result sequence, whatever the index range; with an empty index range
    and at least one K value it returns nothing: the first run raises, a
    division by zero unless NumPy first rejects a negative K. *)
Theorem main_degenerate (pow15 : Z -> float) (np_cos : float -> float)
    (N_MAX : Z) (w : World) :
  main pow15 np_cos N_MAX [] w = Ok (([], []), w) /\
  (N_MAX < 1 ->
   forall K Ks,
     main pow15 np_cos N_MAX (K :: Ks) w
     = Raise (if K <? 0 then ValueError else ZeroDivisionError)).
Proof.
  split; [reflexivity|].
  intros HN K Ks. unfold main. rewrite np_arange_empty by assumption.
  cbn [main_loop]. unfold bind. rewrite run_K_empty_range. reflexivity.
Qed.

(** *** The source of randomness *)

Lemma value_of_bind {A B : Type} (r : result (A * World))
    (g : A -> result B) :
  value_of match r with
           | Ok (a, w') => match g a with
                           | Ok b => Ok (b, w')
                           | Raise e => Raise e
                           end
           | Raise e => Raise e
           end
  = match value_of r with
    | Ok a => g a
    | Raise e => Raise e
    end.
Proof.
  destruct r as [[a w']|e]; [|reflexivity]. simpl.
  destruct (g a); reflexivity.
Qed.

(** C3, as the code has it. The synthesizer has no seed argument: its
    coefficients are the next [K] samples of the process-wide generator.
    Two runs with the same index range and the same [K], from any two
    worlds whose generators deliver the same next [K] samples, have the
    same coefficient vector, the same corrections, the same corrected
    values, and records with the same K, prime count and prime fraction,
    whatever their clocks read. *)
Theorem runs_depend_on_generator_state (pow15 : Z -> float)
    (np_cos : float -> float) (n_values : list Z) (K : Z) (w1 w2 : World) :
  (forall i, (i < Z.to_nat K)%nat ->
     rng_stream w1 (rng_pos w1 + i) = rng_stream w2 (rng_pos w2 + i)) ->
  value_of (np_random_uniform (of_Z (-2)) (of_Z 2) K w1)
  = value_of (np_random_uniform (of_Z (-2)) (of_Z 2) K w2) /\
  value_of (correction_fourier np_cos n_values K w1)
  = value_of (correction_fourier np_cos n_values K w2) /\
  value_of (sequence_vals pow15 np_cos n_values K w1)
  = value_of (sequence_vals pow15 np_cos n_values K w2) /\
  map_value statistics (value_of (run_K pow15 np_cos n_values K w1))
  = map_value statistics (value_of (run_K pow15 np_cos n_values K w2)).
Proof.
  intros Hrng.
  assert (Hcoeffs : forall v1 v2,
            (forall i, (i < Z.to_nat K)%nat ->
               rng_stream v1 (rng_pos v1 + i) = rng_stream v2 (rng_pos v2 + i)) ->
            value_of (np_random_uniform (of_Z (-2)) (of_Z 2) K v1)
            = value_of (np_random_uniform (of_Z (-2)) (of_Z 2) K v2)).
  { intros v1 v2 H. unfold np_random_uniform.
    destruct (K <? 0); [reflexivity|]. cbn [value_of]. f_equal.
    apply map_ext_in. intros i Hi. apply in_seq in Hi.
    rewrite H by lia. reflexivity. }
  assert (Hcorr : forall v1 v2,
            (forall i, (i < Z.to_nat K)%nat ->
               rng_stream v1 (rng_pos v1 + i) = rng_stream v2 (rng_pos v2 + i)) ->
            value_of (correction_fourier np_cos n_values K v1)
            = value_of (correction_fourier np_cos n_values K v2)).
  { intros v1 v2 H. rewrite !correction_fourier_unfold, !value_of_bind.
    rewrite (Hcoeffs v1 v2 H). reflexivity. }
  assert (Hseq : forall v1 v2,
            (forall i, (i < Z.to_nat K)%nat ->
               rng_stream v1 (rng_pos v1 + i) = rng_stream v2 (rng_pos v2 + i)) ->
            value_of (sequence_vals pow15 np_cos n_values K v1)
            = value_of (sequence_vals pow15 np_cos n_values K v2)).
  { intros v1 v2 H. rewrite !sequence_vals_unfold.
    destruct (map_result (base_MFM pow15) n_values) as [bs|e]; [|reflexivity].
    pose proof (Hcorr v1 v2 H) as Hc.
    destruct (correction_fourier np_cos n_values K v1) as [[c1 v1']|e1];
      destruct (correction_fourier np_cos n_values K v2) as [[c2 v2']|e2];
      cbn [value_of] in *; congruence. }
  split; [apply Hcoeffs; assumption|].
  split; [apply Hcorr; assumption|].
  split; [apply Hseq; assumption|].
  rewrite !run_K_unfold.
  pose proof (Hseq (tick w1) (tick w2) Hrng) as Hs.
  destruct (sequence_vals pow15 np_cos n_values K (tick w1)) as [[s1 v1']|e1];
    destruct (sequence_vals pow15 np_cos n_values K (tick w2)) as [[s2 v2']|e2];
    cbn [value_of] in Hs; try discriminate.
  - injection Hs as <-. cbv zeta.
    destruct (py_truediv _ _); reflexivity.
  - injection Hs as <-. reflexivity.
Qed.

(** * Concrete runs *)

(** The rounding of [Binary64] agrees with the IEEE 754 operations of the
    standard library. *)
Example binary64_matches_ieee :
  to_spec (fdiv (of_Z 1) (of_Z 3))
  = SFdiv 53 1024 (to_spec (of_Z 1)) (to_spec (of_Z 3)) /\
  to_spec (fmul (of_Z 2) np_pi)
  = SFmul 53 1024 (to_spec (of_Z 2)) (to_spec np_pi) /\
  to_spec (fadd (of_Z (-2)) (fmul (of_Z 4) (sample_stream 3)))
  = SFadd 53 1024 (to_spec (of_Z (-2)))
      (SFmul 53 1024 (to_spec (of_Z 4)) (to_spec (sample_stream 3))) /\
  to_spec (fsub (fdiv (of_Z 1) (of_Z 10)) (fdiv (of_Z 3) (of_Z 10)))
  = SFsub 53 1024 (SFdiv 53 1024 (to_spec (of_Z 1)) (to_spec (of_Z 10)))
      (SFdiv 53 1024 (to_spec (of_Z 3)) (to_spec (of_Z 10))) /\
  to_spec (pow15_cr 4)
  = SFmul 53 1024 (to_spec (of_Z 4)) (SFsqrt 53 1024 (to_spec (of_Z 4))).
Proof. vm_compute. repeat split. Qed.

(** [10 ** 1.5 = 31.622776601683793], [cos 1 = 0.5403023058681398] and
    [cos pi = -1]. *)
Example reference_library_values :
  pow15_cr 10 = Float 8901020307485223 (-48) /\
  cos_ref (of_Z 1) = Float 4866610526750348 (-53) /\
  cos_ref np_pi = Float (-4503599627370496) (-52).
Proof. vm_compute. repeat split. Qed.

Lemma pow15_cr_positive (n : Z) : 1 <= n -> 0 < Fnum (pow15_cr n).
Proof.
  intros Hn. destruct (pow15_cr_accurate n Hn) as [H _]. lia.
Qed.

(** With the correctly rounded power, [base_MFM] gives the exact base value
    up to the index 90 and departs from it at 91. *)
Example base_MFM_cr_exact_up_to_90 :
  forallb (fun n => match base_MFM pow15_cr n with
                    | Ok v => v =? base_exact n
                    | Raise _ => false
                    end) (np_arange 1 91) = true /\
  base_MFM pow15_cr 91 = Ok 5368193626454993 /\
  base_exact 91 = 5368193626454992.
Proof. vm_compute. repeat split. Qed.

Lemma base_MFM_5000_not_exact_witness :
  2 ^ 52 <= Fnum (pow15_cr 5000) < 2 ^ 53 /\
  exists v, base_MFM pow15_cr 5000 = Ok v /\
            1 < Z.abs (v - base_exact 5000).
Proof.
  assert (H : 2 ^ 52 <= Fnum (pow15_cr 5000) < 2 ^ 53)
    by (vm_compute; split; [discriminate | reflexivity]).
  split; [exact H | exact (base_MFM_5000_not_exact pow15_cr H)].
Defined.

Lemma base_MFM_1_and_10_witness :
  pow15_accurate 1 (pow15_cr 1) /\ pow15_accurate 10 (pow15_cr 10) /\
  base_MFM pow15_cr 1 = Ok 3 /\ base_MFM pow15_cr 10 = Ok 3.
Proof.
  assert (H1 : pow15_accurate 1 (pow15_cr 1))
    by (apply pow15_cr_accurate; lia).
  assert (H10 : pow15_accurate 10 (pow15_cr 10))
    by (apply pow15_cr_accurate; lia).
  split; [exact H1|]. split; [exact H10|].
  exact (base_MFM_1_and_10 pow15_cr H1 H10).
Defined.

Lemma base_MFM_fallback_witness :
  -3 < 1 /\ base_MFM pow15_cr (-3) = Ok 2.
Proof.
  split; [lia | apply (base_MFM_fallback pow15_cr (-3)); lia].
Defined.

Lemma base_MFM_ge_2_witness :
  (forall n, 1 <= n -> 0 < Fnum (pow15_cr n)) /\
  exists v, base_MFM pow15_cr 12 = Ok v /\ 2 <= v.
Proof.
  split; [exact pow15_cr_positive|].
  exact (base_MFM_ge_2 pow15_cr pow15_cr_positive 12).
Defined.

Lemma is_prime_pythonic_small_witness :
  -5 <= 7 <= 30 /\
  (is_prime_pythonic 7 = true <-> Z.prime 7) /\
  (7 < 2 -> is_prime_pythonic 7 = false) /\
  (is_prime_pythonic 7 = true <-> In 7 small_primes).
Proof.
  split; [lia | apply (is_prime_pythonic_small 7); lia].
Defined.

(** C2, refuted as stated: the default K values over the empty index range
    [N_MAX = 0] do not give an empty result sequence, the first run
    raises. *)
Lemma empty_range_raises :
  main pow15_cr cos_ref 0 [5; 10; 15; 20] world0 = Raise ZeroDivisionError /\
  ~ (forall N_MAX K_VALUES,
       N_MAX < 1 \/ K_VALUES = [] ->
       exists w', main pow15_cr cos_ref N_MAX K_VALUES world0
                  = Ok (([], []), w')).
Proof.
  assert (H : main pow15_cr cos_ref 0 [5; 10; 15; 20] world0
              = Raise ZeroDivisionError) by (vm_compute; reflexivity).
  split; [exact H|].
  intros Hall. destruct (Hall 0 [5; 10; 15; 20]) as [w' Hw]; [left; lia|].
  rewrite H in Hw. discriminate.
Qed.

Lemma main_degenerate_witness :
  main pow15_cr cos_ref 0 [] world0 = Ok (([], []), world0) /\
  0 < 1 /\
  main pow15_cr cos_ref 0 [5; 10] world0 = Raise ZeroDivisionError.
Proof.
  destruct (main_degenerate pow15_cr cos_ref 0 world0) as [H1 H2].
  split; [exact H1|]. split; [lia|].
  exact (H2 ltac:(lia) 5 [10]).
Defined.

(** C3, refuted as stated: the script gives its runs no seed. Two
    successive runs of one process over the same index range [1..3] and with
    the same [K = 1] draw different coefficients and count different numbers
    of primes; and two runs from the same generator state have different
    records when their clocks differ. *)
Lemma successive_runs_differ :
  value_of (np_random_uniform (of_Z (-2)) (of_Z 2) 1 world0)
  <> value_of (np_random_uniform (of_Z (-2)) (of_Z 2) 1 (consume world0 1)) /\
  (exists r1 r2 times,
     value_of (main pow15_cr cos_ref 3 [1; 1] world0) = Ok ([r1; r2], times) /\
     res_K r1 = res_K r2 /\
     res_prime_count r1 = 1 /\ res_prime_count r2 = 2) /\
  value_of (run_K pow15_cr cos_ref (np_arange 1 4) 1 world0)
  <> value_of (run_K pow15_cr cos_ref (np_arange 1 4) 1 world1).
Proof.
  split; [vm_compute; discriminate|]. split.
  - do 3 eexists. split; [vm_compute; reflexivity|].
    repeat split.
  - vm_compute; discriminate.
Qed.

Lemma runs_depend_on_generator_state_witness :
  (forall i, (i < Z.to_nat 1)%nat ->
     rng_stream world0 (rng_pos world0 + i)
     = rng_stream world1 (rng_pos world1 + i)) /\
  value_of (np_random_uniform (of_Z (-2)) (of_Z 2) 1 world0)
  = value_of (np_random_uniform (of_Z (-2)) (of_Z 2) 1 world1) /\
  value_of (correction_fourier cos_ref (np_arange 1 4) 1 world0)
  = value_of (correction_fourier cos_ref (np_arange 1 4) 1 world1) /\
  value_of (sequence_vals pow15_cr cos_ref (np_arange 1 4) 1 world0)
  = value_of (sequence_vals pow15_cr cos_ref (np_arange 1 4) 1 world1) /\
  map_value statistics
    (value_of (run_K pow15_cr cos_ref (np_arange 1 4) 1 world0))
  = map_value statistics
      (value_of (run_K pow15_cr cos_ref (np_arange 1 4) 1 world1)).
Proof.
  assert (H : forall i, (i < Z.to_nat 1)%nat ->
            rng_stream world0 (rng_pos world0 + i)
            = rng_stream world1 (rng_pos world1 + i))
    by (intros i _; reflexivity).
  split; [exact H|].
  exact (runs_depend_on_generator_state pow15_cr cos_ref (np_arange 1 4) 1
           world0 world1 H).
Defined.

Lemma main_results_in_K_order_witness :
  (forall n, 1 <= n -> 0 < Fnum (pow15_cr n)) /\
  1 <= 3 /\
  Forall (fun K => 0 <= K) [1; 0] /\
  exists results times w',
    main pow15_cr cos_ref 3 [1; 0] world0 = Ok ((results, times), w') /\
    map res_K results = [1; 0] /\
    length results = length [1; 0] /\
    forall Ks1 Ks2, [1; 0] = Ks1 ++ Ks2 ->
      exists results1 times1 w1 results2,
        main pow15_cr cos_ref 3 Ks1 world0 = Ok ((results1, times1), w1) /\
        map res_K results1 = Ks1 /\
        results = results1 ++ results2.
Proof.
  assert (HN : 1 <= 3) by lia.
  assert (HK : Forall (fun K => 0 <= K) [1; 0])
    by (repeat constructor; discriminate).
  split; [exact pow15_cr_positive|]. split; [exact HN|]. split; [exact HK|].
  exact (main_results_in_K_order pow15_cr cos_ref pow15_cr_positive 3 [1; 0]
           world0 HN HK).
Defined.

Lemma prime_fraction_is_quotient_witness :
  (forall n, 1 <= n -> 0 < Fnum (pow15_cr n)) /\
  1 <= 3 < 2 ^ 53 /\ 0 <= 1 /\
  exists r w' vals,
    run_K pow15_cr cos_ref (np_arange 1 (3 + 1)) 1 world0 = Ok (r, w') /\
    value_of (sequence_vals pow15_cr cos_ref (np_arange 1 (3 + 1)) 1
                (tick world0)) = Ok vals /\
    Z.of_nat (length vals) = 3 /\
    res_prime_count r = Z.of_nat (length (filter is_prime_pythonic vals)) /\
    py_truediv (of_Z (res_prime_count r)) (of_Z 3)
    = Ok (res_prime_fraction r) /\
    (0 <= B2Q (res_prime_fraction r) <= 1)%Q /\
    (Qabs (B2Q (res_prime_fraction r)
           - inject_Z (res_prime_count r) / inject_Z 3) <= 1 # 2 ^ 53)%Q.
Proof.
  assert (HN : 1 <= 3 < 2 ^ 53) by (split; [lia | reflexivity]).
  assert (HK : 0 <= 1) by discriminate.
  split; [exact pow15_cr_positive|]. split; [exact HN|]. split; [exact HK|].
  exact (prime_fraction_is_quotient pow15_cr cos_ref pow15_cr_positive 3 1
           world0 HN HK).
Defined.

(** A run of the script over the indices 1 to 3, with one coefficient and
    then none: the records, and the two elapsed times. *)
Example main_3_runs :
  value_of (main pow15_cr cos_ref 3 [1; 0] world0)
  = Ok ([mkResult 1 1 (Float 6004799503160661 (-54))
           (Float 4503599627370496 (-55));
         mkResult 0 3 (Float 4503599627370496 (-52))
           (Float 5629499534213120 (-53))],
        [Float 4503599627370496 (-55); Float 5629499534213120 (-53)]).
Proof. vm_compute. reflexivity. Qed.

(** * Further properties *)

(** ** How far the base value can be from the exact one *)

Lemma square_lt_simpl (a b : Z) : 0 <= a -> 0 <= b -> a * a < b * b -> a < b.
Proof. intros Ha Hb H. nia. Qed.

(** The two comparisons that an accurate divisor gives, turned into the
    bound on the floored quotients. *)
Lemma quotient_error_core (m q w : Z) :
  2 ^ 52 <= m -> 0 <= q -> 0 <= w ->
  w * m < (q + 1) * (m + 1) ->
  q * (m - 1) < (w + 1) * m ->
  2 ^ 52 * Z.abs (w - q) <= 2 ^ 52 + q.
Proof.
  intros Hm Hq Hw Hup Hlo.
  assert (H52 : 0 < 2 ^ 52) by reflexivity.
  destruct (Z.le_gt_cases w q) as [Hle|Hgt].
  - rewrite Z.abs_neq by lia.
    destruct (Z.eq_dec w q) as [->|Hne]; [lia|].
    assert (H1 : (q - w - 1) * m < q) by nia.
    assert (H2 : (q - w - 1) * 2 ^ 52 <= (q - w - 1) * m)
      by (apply Z.mul_le_mono_nonneg_l; lia).
    lia.
  - rewrite Z.abs_eq by lia.
    assert (H1 : (w - q - 1) * m < q + 1) by nia.
    assert (H2 : (w - q - 1) * 2 ^ 52 <= (w - q - 1) * m)
      by (apply Z.mul_le_mono_nonneg_l; lia).
    lia.
Qed.

Lemma quotient_error (G X m q w : Z) :
  0 <= G -> 2 ^ 52 <= m -> 0 <= q ->
  (m - 1) * (m - 1) < X < (m + 1) * (m + 1) ->
  q * q * X <= G * G < (q + 1) * (q + 1) * X ->
  w * m <= G < (w + 1) * m ->
  2 ^ 52 * Z.abs (w - q) <= 2 ^ 52 + q.
Proof.
  intros HG Hm Hq HX HqX Hw.
  assert (H52 : 0 < 2 ^ 52) by reflexivity.
  assert (Hw0 : 0 <= w) by nia.
  apply (quotient_error_core m); try assumption.
  - apply square_lt_simpl; [nia|nia|].
    apply Z.le_lt_trans with (G * G); [nia|].
    apply Z.lt_le_trans with ((q + 1) * (q + 1) * X); [lia|].
    replace ((q + 1) * (m + 1) * ((q + 1) * (m + 1)))
      with ((q + 1) * (q + 1) * ((m + 1) * (m + 1))) by ring.
    apply Z.mul_le_mono_nonneg_l; nia.
  - apply square_lt_simpl; [nia|nia|].
    apply Z.le_lt_trans with (q * q * X).
    + replace (q * (m - 1) * (q * (m - 1)))
        with (q * q * ((m - 1) * (m - 1))) by ring.
      apply Z.mul_le_mono_nonneg_l; nia.
    + apply Z.le_lt_trans with (G * G); [lia|]. nia.
Qed.

(** The floor division of [base_MFM], as a bracket of the dividend. *)
Lemma floordiv_bracket (F m e : Z) :
  0 <= F -> 0 < m ->
  exists w,
    sympy_floordiv F (Float m e) = Ok w /\
    if e <? 0 then w * m <= F * 2 ^ (- e) < (w + 1) * m
    else w * (m * 2 ^ e) <= F < (w + 1) * (m * 2 ^ e).
Proof.
  intros HF Hm. destruct (Z.ltb_spec e 0) as [He|He].
  - rewrite sympy_floordiv_neg_exp by lia. eexists; split; [reflexivity|].
    pose proof (Z.mul_div_le (F * 2 ^ (- e)) m Hm).
    pose proof (Z.mul_succ_div_gt (F * 2 ^ (- e)) m Hm). lia.
  - rewrite sympy_floordiv_pos_exp by lia. eexists; split; [reflexivity|].
    assert (HD : 0 < m * 2 ^ e).
    { apply Z.mul_pos_pos; [lia|]. apply Z.pow_pos_nonneg; lia. }
    pose proof (Z.mul_div_le F (m * 2 ^ e) HD).
    pose proof (Z.mul_succ_div_gt F (m * 2 ^ e) HD). lia.
Qed.

(** X1. With a power accurate to one unit in the last place, the base value
    is returned and its distance to the exact [floor (F_n / n^1.5) + 2] is
    at most 1 plus a fraction [2^-52] of the exact value. *)
Theorem base_MFM_error_bound (pow15 : Z -> float) (n : Z) :
  1 <= n -> pow15_accurate n (pow15 n) ->
  exists v, base_MFM pow15 n = Ok v /\
            2 ^ 52 * Z.abs (v - base_exact n) <= 2 ^ 52 + base_exact n.
Proof.
  intros Hn Hacc. rewrite base_MFM_unfold by assumption.
  destruct (base_exact_spec n Hn) as (Hq0 & Hq). cbv zeta in Hq0, Hq.
  pose proof (fibonacci_sympy_nonneg n) as HF.
  set (F := fibonacci_sympy n) in *.
  set (q := base_exact n - 2) in *.
  assert (Eq : base_exact n = q + 2) by (unfold q; lia).
  rewrite Eq. clearbody q F.
  assert (Hn3 : 0 < n ^ 3) by (apply Z.pow_pos_nonneg; lia).
  destruct (pow15 n) as [m e].
  destruct (floordiv_bracket F m e HF) as (w & -> & Hw).
  { destruct Hacc as [Hm _]. cbn [Fnum] in Hm. lia. }
  exists (w + 2). split; [reflexivity|].
  replace (w + 2 - (q + 2)) with (w - q) by ring.
  enough (2 ^ 52 * Z.abs (w - q) <= 2 ^ 52 + q) by lia.
  destruct (Z.ltb_spec e 0) as [He|He].
  - apply pow15_accurate_neg_exp in Hacc; [|assumption].
    destruct Hacc as (Hm & Hlo & Hhi).
    assert (HK : 0 < 2 ^ (- e)) by (apply Z.pow_pos_nonneg; lia).
    set (K := 2 ^ (- e)) in *. clearbody K.
    assert (HKK : 0 < K * K) by nia.
    assert (HG : 0 <= F * K) by nia.
    assert (HqX : q * q * (n ^ 3 * (K * K)) <= F * K * (F * K)
                  < (q + 1) * (q + 1) * (n ^ 3 * (K * K))).
    { replace (F * K * (F * K)) with (F * F * (K * K)) by ring.
      replace (q * q * (n ^ 3 * (K * K)))
        with (q * q * n ^ 3 * (K * K)) by ring.
      replace ((q + 1) * (q + 1) * (n ^ 3 * (K * K)))
        with ((q + 1) * (q + 1) * n ^ 3 * (K * K)) by ring.
      split.
      - apply Z.mul_le_mono_nonneg_r; lia.
      - apply Z.mul_lt_mono_pos_r; lia. }
    exact (quotient_error (F * K) (n ^ 3 * (K * K)) m q w HG
             (proj1 Hm) Hq0 (conj Hlo Hhi) HqX Hw).
  - apply pow15_accurate_nonneg_exp in Hacc; [|assumption].
    destruct Hacc as (Hm & Hlo & Hhi).
    assert (HU : 0 < 2 ^ e) by (apply Z.pow_pos_nonneg; lia).
    set (U := 2 ^ e) in *. clearbody U.
    assert (Hw0 : 0 <= w) by nia.
    assert (H52 : 0 < 2 ^ 52) by reflexivity.
    apply (quotient_error_core m); try lia.
    + apply (Z.mul_lt_mono_pos_r U); [assumption|].
      apply square_lt_simpl; [nia|nia|].
      apply Z.le_lt_trans with (F * F); [nia|].
      apply Z.lt_le_trans with ((q + 1) * (q + 1) * n ^ 3); [lia|].
      replace ((q + 1) * (m + 1) * U * ((q + 1) * (m + 1) * U))
        with ((q + 1) * (q + 1) * ((m + 1) * U * ((m + 1) * U))) by ring.
      apply Z.mul_le_mono_nonneg_l; nia.
    + apply (Z.mul_lt_mono_pos_r U); [assumption|].
      apply square_lt_simpl; [nia|nia|].
      apply Z.le_lt_trans with (q * q * n ^ 3).
      * replace (q * (m - 1) * U * (q * (m - 1) * U))
          with (q * q * ((m - 1) * U * ((m - 1) * U))) by ring.
        apply Z.mul_le_mono_nonneg_l; nia.
      * apply Z.le_lt_trans with (F * F); [lia|]. nia.
Qed.

(** ** Indices that are perfect squares *)

Lemma sqrt_quotient_square (F T : Z) :
  0 <= F -> 0 < T -> Z.sqrt (F * F / (T * T)) = F / T.
Proof.
  intros HF HT. apply Z.sqrt_unique.
  pose proof (Z.mul_div_le F T HT) as H1.
  pose proof (Z.mul_succ_div_gt F T HT) as H2.
  assert (Hq : 0 <= F / T) by (apply Z.div_pos; lia).
  set (q := F / T) in *. clearbody q. unfold Z.succ in *.
  assert (HTT : 0 < T * T) by nia.
  split.
  - apply Z.div_le_lower_bound; [assumption|].
    replace (T * T * (q * q)) with (T * q * (T * q)) by ring.
    apply Z.mul_le_mono_nonneg; nia.
  - apply Z.div_lt_upper_bound; [assumption|].
    replace (T * T * ((q + 1) * (q + 1)))
      with (T * (q + 1) * (T * (q + 1))) by ring.
    apply Z.mul_lt_mono_nonneg; lia.
Qed.

(** X2. At an index [n = t^2] the power [n^1.5 = t^3] is an integer, an
    accurate power function returns it exactly, and the base value is the
    exact [floor (F_n / n^1.5) + 2] (for [t^3 < 2^52], which covers every
    index below [2^34]). *)
Theorem base_MFM_exact_at_squares (pow15 : Z -> float) (t : Z) :
  1 <= t -> t ^ 3 < 2 ^ 52 ->
  pow15_accurate (t * t) (pow15 (t * t)) ->
  base_MFM pow15 (t * t) = Ok (base_exact (t * t)).
Proof.
  intros Ht HT Hacc. rewrite base_MFM_unfold by nia.
  unfold base_exact, base_exact_of.
  pose proof (fibonacci_sympy_nonneg (t * t)) as HF.
  set (F := fibonacci_sympy (t * t)) in *. clearbody F.
  assert (En : (t * t) ^ 3 = t ^ 3 * t ^ 3) by ring.
  assert (HT0 : 0 < t ^ 3) by (apply Z.pow_pos_nonneg; lia).
  rewrite En in *. set (T := t ^ 3) in *. clearbody T.
  replace (F ^ 2) with (F * F) by ring.
  rewrite sqrt_quotient_square by assumption.
  destruct (pow15 (t * t)) as [m e].
  destruct (Z.lt_ge_cases e 0) as [He|He].
  - apply pow15_accurate_neg_exp in Hacc; [|assumption].
    rewrite En in Hacc. destruct Hacc as (Hm & Hlo & Hhi).
    assert (HK : 0 < 2 ^ (- e)) by (apply Z.pow_pos_nonneg; lia).
    rewrite sympy_floordiv_neg_exp by lia.
    set (K := 2 ^ (- e)) in *. clearbody K.
    assert (H1 : m - 1 < T * K)
      by (apply square_lt_simpl; [lia|nia|nia]).
    assert (H2 : T * K < m + 1)
      by (apply square_lt_simpl; [nia|lia|nia]).
    assert (Em : m = T * K) by lia. subst m.
    rewrite Z.div_mul_cancel_r by lia. reflexivity.
  - apply pow15_accurate_nonneg_exp in Hacc; [|assumption].
    rewrite En in Hacc. destruct Hacc as (Hm & Hlo & _).
    assert (HU : 0 < 2 ^ e) by (apply Z.pow_pos_nonneg; lia).
    exfalso.
    assert (H1 : (m - 1) * 2 ^ e < T)
      by (apply square_lt_simpl; [nia|lia|assumption]).
    assert (H52 : 2 ^ 52 - 1 <= (m - 1) * 2 ^ e) by nia.
    lia.
Qed.

(** X3. With the correctly rounded power the base value is the exact
    [floor (F_n / n^1.5) + 2] at every index from 1 to 90: the round-off of
    the divisor starts to show at 91. *)
Theorem base_MFM_cr_exact_below_91 (n : Z) :
  1 <= n <= 90 -> base_MFM pow15_cr n = Ok (base_exact n).
Proof.
  intros Hn.
  assert (Hall : forallb (fun i => match base_MFM pow15_cr i with
                                   | Ok v => v =? base_exact i
                                   | Raise _ => false
                                   end) (np_arange 1 91) = true)
    by (vm_compute; reflexivity).
  rewrite forallb_forall in Hall.
  assert (Hin : In n (np_arange 1 91)).
  { unfold np_arange. apply in_map_iff. exists (Z.to_nat (n - 1)).
    split; [lia|]. apply in_seq. lia. }
  specialize (Hall n Hin).
  destruct (base_MFM pow15_cr n) as [v|e]; [|discriminate].
  apply Z.eqb_eq in Hall. rewrite Hall. reflexivity.
Qed.

Lemma base_MFM_cr_exact_below_91_witness :
  1 <= 64 <= 90 /\ base_MFM pow15_cr 64 = Ok (base_exact 64).
Proof.
  split; [lia | apply (base_MFM_cr_exact_below_91 64); lia].
Defined.

Lemma base_MFM_error_bound_witness :
  1 <= 300 /\ pow15_accurate 300 (pow15_cr 300) /\
  exists v, base_MFM pow15_cr 300 = Ok v /\
            2 ^ 52 * Z.abs (v - base_exact 300) <= 2 ^ 52 + base_exact 300.
Proof.
  assert (Hn : 1 <= 300) by lia.
  split; [exact Hn|]. split; [exact (pow15_cr_accurate 300 Hn)|].
  exact (base_MFM_error_bound pow15_cr 300 Hn (pow15_cr_accurate 300 Hn)).
Defined.

Lemma base_MFM_exact_at_squares_witness :
  1 <= 12 /\ 12 ^ 3 < 2 ^ 52 /\
  pow15_accurate (12 * 12) (pow15_cr (12 * 12)) /\
  base_MFM pow15_cr (12 * 12) = Ok (base_exact (12 * 12)).
Proof.
  assert (Ht : 1 <= 12) by lia.
  assert (HT : 12 ^ 3 < 2 ^ 52) by reflexivity.
  assert (Hacc : pow15_accurate (12 * 12) (pow15_cr (12 * 12)))
    by (apply pow15_cr_accurate; lia).
  split; [exact Ht|]. split; [exact HT|]. split; [exact Hacc|].
  exact (base_MFM_exact_at_squares pow15_cr 12 Ht HT Hacc).
Defined.

(** ** Primality of any integer *)


(** ** The correction synthesizer *)

(** X5. On a non-empty index array and for [0 <= K], the synthesizer
    returns one correction per index, each the float of an integer, draws
    exactly [K] samples from the generator and leaves the clock alone. *)
Theorem correction_fourier_shape (np_cos : float -> float)
    (n_array : list Z) (K : Z) (w : World) :
  (1 <= length n_array)%nat -> 0 <= K ->
  exists c,
    correction_fourier np_cos n_array K w = Ok (c, consume w (Z.to_nat K)) /\
    length c = length n_array /\
    Forall (fun x => exists k : Z, x = of_Z k) c.
Proof.
  intros HN HK.
  rewrite correction_fourier_unfold, np_random_uniform_ok by assumption.
  unfold corrections_of.
  match goal with |- context [correction_loop _ _ ?N ?cs ?ks ?c0] =>
    destruct (correction_loop_ok np_cos n_array N cs ks c0) as (c & -> & Hc)
  end.
  - apply of_Z_nonzero. lia.
  - apply repeat_length.
  - exists (map np_round c). split; [reflexivity|].
    split; [rewrite length_map; assumption|].
    apply Forall_forall. intros x Hx. apply in_map_iff in Hx.
    destruct Hx as (y & <- & _). eexists. reflexivity.
Qed.

Lemma correction_fourier_shape_witness :
  (1 <= length [1; 2; 3])%nat /\ 0 <= 1 /\
  exists c,
    correction_fourier cos_ref [1; 2; 3] 1 world0
    = Ok (c, consume world0 (Z.to_nat 1)) /\
    length c = length [1; 2; 3] /\
    Forall (fun x => exists k : Z, x = of_Z k) c.
Proof.
  assert (HN : (1 <= length [1; 2; 3])%nat) by (simpl; lia).
  assert (HK : 0 <= 1) by lia.
  split; [exact HN|]. split; [exact HK|].
  exact (correction_fourier_shape cos_ref [1; 2; 3] 1 world0 HN HK).
Defined.

(** X6. The ways the synthesizer fails: a negative [K] is rejected by NumPy
    with a [ValueError], before anything else; on an empty index array any
    [K >= 1] divides by the zero length; with [K = 0] the empty array gives
    the empty correction. *)
Theorem correction_fourier_failures (np_cos : float -> float)
    (n_array : list Z) (K : Z) (w : World) :
  (K < 0 -> correction_fourier np_cos n_array K w = Raise ValueError) /\
  (n_array = [] -> 1 <= K ->
   correction_fourier np_cos n_array K w = Raise ZeroDivisionError) /\
  (n_array = [] -> K = 0 ->
   correction_fourier np_cos n_array K w = Ok ([], consume w 0)).
Proof.
  rewrite correction_fourier_unfold. split; [|split].
  - intros HK. unfold np_random_uniform.
    destruct (Z.ltb_spec K 0); [reflexivity|lia].
  - intros -> HK. rewrite np_random_uniform_ok by lia.
    unfold corrections_of, range.
    destruct (Z.to_nat K) as [|k] eqn:E; [lia|]. reflexivity.
  - intros -> ->. reflexivity.
Qed.

Lemma correction_fourier_failures_witness :
  (-1 < 0 /\ correction_fourier cos_ref [1; 2] (-1) world0 = Raise ValueError)
  /\ (1 <= 5 /\ correction_fourier cos_ref [] 5 world0
                = Raise ZeroDivisionError)
  /\ correction_fourier cos_ref [] 0 world0 = Ok ([], consume world0 0).
Proof.
  split; [split; [lia|]|split; [split; [lia|]|]].
  - exact (proj1 (correction_fourier_failures cos_ref [1; 2] (-1) world0)
             ltac:(lia)).
  - exact (proj1 (proj2 (correction_fourier_failures cos_ref [] 5 world0))
             eq_refl ltac:(lia)).
  - exact (proj2 (proj2 (correction_fourier_failures cos_ref [] 0 world0))
             eq_refl eq_refl).
Defined.

(** ** More on rounding *)

Lemma B2Q_fopp (x : float) : (B2Q (fopp x) == - B2Q x)%Q.
Proof.
  unfold B2Q, fopp; cbn [Fnum Fexp]. rewrite inject_Z_opp. ring.
Qed.

Lemma B2Q_nonneg (m e : Z) : 0 <= m -> (0 <= B2Q (Float m e))%Q.
Proof.
  intros Hm. unfold B2Q; cbn [Fnum Fexp].
  apply Qmult_le_0_compat.
  - change 0%Q with (inject_Z 0). rewrite <- Zle_Qle. assumption.
  - apply Qlt_le_weak, pow2_pos.
Qed.

Lemma round_pos_nonneg (a b : Z) :
  0 < a -> 0 < b -> (0 <= B2Q (round_pos a b))%Q.
Proof.
  intros Ha Hb. unfold round_pos.
  destruct (scale a b (52 - ilog2 a b)) as [a' b'] eqn:Hs.
  assert (Hab : 0 <= a' /\ 0 < b').
  { unfold scale in Hs.
    destruct (Z.leb_spec 0 (52 - ilog2 a b)) as [Hl|Hl];
      apply pair_equal_spec in Hs; destruct Hs as [<- <-].
    - split; [|assumption]. apply Z.mul_nonneg_nonneg; [lia|].
      apply Z.pow_nonneg; lia.
    - split; [lia|]. apply Z.mul_pos_pos; [assumption|].
      apply Z.pow_pos_nonneg; lia. }
  pose proof (rne_nonneg a' b' (proj2 Hab) (proj1 Hab)) as Hm.
  destruct (rne a' b' =? 2 ^ 53); apply B2Q_nonneg; [discriminate|assumption].
Qed.

(** Rounding keeps the sign. *)
Lemma round_nonneg (q : Q) : (0 <= q)%Q -> (0 <= B2Q (round q))%Q.
Proof.
  destruct q as [a b]. intros H. unfold Qle in H; cbn [Qnum Qden] in H.
  unfold round; cbn [Qnum Qden].
  destruct a as [|a|a]; [discriminate| |lia].
  apply round_pos_nonneg; lia.
Qed.

Lemma ilog2_le (a b j : Z) :
  0 < a -> 0 < b -> 0 <= j -> a <= 2 ^ j * b -> ilog2 a b <= j.
Proof.
  intros Ha Hb Hj Hab. unfold ilog2.
  assert (H : Z.log2 a <= j + Z.log2 b).
  { rewrite <- Z.log2_mul_pow2 by lia.
    apply Z.log2_le_mono. lia. }
  destruct (scale a b (- (Z.log2 a - Z.log2 b))) as [a' b'].
  destruct (a' <? b'); lia.
Qed.

(** Rounding does not cross an integer: integers up to [2^50] are binary64
    numbers. *)
Lemma round_pos_le_int (a b n : Z) :
  0 < a -> 0 < b -> n <= 2 ^ 50 -> a <= n * b ->
  (B2Q (round_pos a b) <= inject_Z n)%Q.
Proof.
  intros Ha Hb Hn Hab. unfold round_pos.
  assert (Hl : ilog2 a b <= 50)
    by (apply ilog2_le; [assumption|assumption|lia|nia]).
  set (l := ilog2 a b) in *. clearbody l.
  unfold scale. destruct (Z.leb_spec 0 (52 - l)) as [_|H]; [|lia].
  set (P := 2 ^ (52 - l)).
  assert (HP : 0 < P) by (apply Z.pow_pos_nonneg; lia).
  assert (HPpos : Z.pos (Z.to_pos P) = P) by (apply Zpos_to_pos_pow2; lia).
  pose proof (rne_le (a * P) b (n * P) Hb ltac:(nia)) as Hle.
  set (m := rne (a * P) b) in *. clearbody m.
  assert (Hv : (B2Q (if m =? 2 ^ 53 then Float (2 ^ 52) (l - 51)
                     else Float m (l - 52)) == m # Z.to_pos P)%Q).
  { destruct (Z.eqb_spec m (2 ^ 53)) as [E|_].
    - rewrite B2Q_neg_exp by lia.
      unfold Qeq; cbn [Qnum Qden]. rewrite HPpos, Zpos_to_pos_pow2 by lia.
      subst m. unfold P.
      replace (52 - l) with (1 + (- (l - 51))) by lia.
      rewrite Z.pow_add_r by lia. lia.
    - rewrite B2Q_neg_exp by lia.
      replace (- (l - 52)) with (52 - l) by lia. reflexivity. }
  rewrite Hv. unfold Qle; cbn [Qnum Qden inject_Z]. rewrite HPpos. lia.
Qed.

Lemma round_within_int (q : Q) (n : Z) :
  0 <= n <= 2 ^ 50 ->
  (- inject_Z n <= q <= inject_Z n)%Q ->
  (- inject_Z n <= B2Q (round q) <= inject_Z n)%Q.
Proof.
  intros Hn [Hlo Hhi].
  assert (HJ : (0 <= inject_Z n)%Q).
  { change 0%Q with (inject_Z 0). rewrite <- Zle_Qle. lia. }
  destruct q as [a b].
  unfold Qle in Hlo, Hhi; cbn [Qnum Qden inject_Z Qopp] in Hlo, Hhi.
  unfold round; cbn [Qnum Qden]. destruct a as [|a|a].
  - change (B2Q (Float 0 0)) with (0 * 1)%Q. lra.
  - pose proof (round_pos_nonneg (Z.pos a) (Z.pos b) ltac:(lia) ltac:(lia)).
    pose proof (round_pos_le_int (Z.pos a) (Z.pos b) n
                  ltac:(lia) ltac:(lia) (proj2 Hn) ltac:(lia)).
    lra.
  - rewrite B2Q_fopp.
    pose proof (round_pos_nonneg (Z.pos a) (Z.pos b) ltac:(lia) ltac:(lia)).
    pose proof (round_pos_le_int (Z.pos a) (Z.pos b) n
                  ltac:(lia) ltac:(lia) (proj2 Hn) ltac:(lia)).
    lra.
Qed.

(** Rounding does not leave an interval [[-2^j, 2^j]]. *)
Lemma round_within_pow2 (q : Q) (j : Z) :
  0 <= j <= 50 ->
  (- inject_Z (2 ^ j) <= q <= inject_Z (2 ^ j))%Q ->
  (- inject_Z (2 ^ j) <= B2Q (round q) <= inject_Z (2 ^ j))%Q.
Proof.
  intros Hj. apply round_within_int. split.
  - apply Z.pow_nonneg; lia.
  - apply Z.pow_le_mono_r; lia.
Qed.

(** ** The coefficients *)

Lemma uniform_sample_range (u : float) :
  (0 <= B2Q u <= 1)%Q ->
  (- (2) <= B2Q (fadd (of_Z (-2)) (fmul (fsub (of_Z 2) (of_Z (-2))) u))
   <= 2)%Q.
Proof.
  intros [Hu0 Hu1].
  assert (E4 : (B2Q (fsub (of_Z 2) (of_Z (-2))) == 4)%Q) by reflexivity.
  assert (E2 : (B2Q (of_Z (-2)) == - (2))%Q) by reflexivity.
  set (four := fsub (of_Z 2) (of_Z (-2))) in *. clearbody four.
  assert (Hx : (0 <= B2Q (fmul four u) <= 4)%Q).
  { unfold fmul. split.
    - apply round_nonneg. rewrite E4. lra.
    - apply (round_within_pow2 _ 2); [lia|].
      change (inject_Z (2 ^ 2)) with 4%Q. rewrite E4. lra. }
  unfold fadd. apply (round_within_pow2 _ 1); [lia|].
  change (inject_Z (2 ^ 1)) with 2%Q. rewrite E2. lra.
Qed.

(** X7. The coefficients lie in [[-2, 2]]: for [0 <= K] and a generator
    whose samples lie in [[0, 1]], [np.random.uniform(-2, 2, K)] returns
    [K] floats between -2 and 2, the rounding of the scaling included. *)
Theorem coefficients_in_range (K : Z) (w : World) :
  0 <= K ->
  (forall i, (0 <= B2Q (rng_stream w i) <= 1)%Q) ->
  exists coeffs,
    np_random_uniform (of_Z (-2)) (of_Z 2) K w
    = Ok (coeffs, consume w (Z.to_nat K)) /\
    length coeffs = Z.to_nat K /\
    Forall (fun c => (- (2) <= B2Q c <= 2)%Q) coeffs.
Proof.
  intros HK Hu. rewrite np_random_uniform_ok by assumption.
  eexists; split; [reflexivity|]. split.
  - rewrite length_map, length_seq. reflexivity.
  - apply Forall_forall. intros c Hc. apply in_map_iff in Hc.
    destruct Hc as (i & <- & _). apply uniform_sample_range. apply Hu.
Qed.

Lemma sample_stream_range (i : nat) : (0 <= B2Q (sample_stream i) <= 1)%Q.
Proof.
  unfold sample_stream.
  set (x := (6364136223846793005 * Z.of_nat i + 1442695040888963407)
            mod 2 ^ 53).
  assert (Hx : 0 <= x < 2 ^ 53) by (apply Z.mod_pos_bound; reflexivity).
  clearbody x.
  assert (Hq : (0 <= B2Q (of_Z x) / B2Q (of_Z (2 ^ 53)) <= 1)%Q).
  { rewrite (of_Z_exact x Hx).
    assert (E : (B2Q (of_Z (2 ^ 53)) == inject_Z (2 ^ 53))%Q) by reflexivity.
    rewrite E.
    assert (HP : (0 < inject_Z (2 ^ 53))%Q) by reflexivity.
    split.
    - apply Qle_shift_div_l; [assumption|]. rewrite Qmult_0_l.
      change 0%Q with (inject_Z 0). rewrite <- Zle_Qle. lia.
    - apply Qle_shift_div_r; [assumption|]. rewrite Qmult_1_l.
      rewrite <- Zle_Qle. lia. }
  exact (proj1 (round_unit_interval _ Hq)).
Qed.

Lemma coefficients_in_range_witness :
  0 <= 3 /\
  (forall i, (0 <= B2Q (rng_stream world0 i) <= 1)%Q) /\
  exists coeffs,
    np_random_uniform (of_Z (-2)) (of_Z 2) 3 world0
    = Ok (coeffs, consume world0 (Z.to_nat 3)) /\
    length coeffs = Z.to_nat 3 /\
    Forall (fun c => (- (2) <= B2Q c <= 2)%Q) coeffs.
Proof.
  assert (HK : 0 <= 3) by lia.
  split; [exact HK|]. split; [exact sample_stream_range|].
  exact (coefficients_in_range 3 world0 HK sample_stream_range).
Defined.

(** ** Rounded corrections as integers *)

Lemma of_Z_exact_abs (n : Z) :
  - 2 ^ 53 < n < 2 ^ 53 -> (B2Q (of_Z n) == inject_Z n)%Q.
Proof.
  intros Hn. destruct n as [|p|p].
  - reflexivity.
  - apply of_Z_exact. lia.
  - change (of_Z (Z.neg p)) with (fopp (of_Z (Z.pos p))).
    rewrite B2Q_fopp, (of_Z_exact (Z.pos p)) by lia.
    change (Z.neg p) with (- Z.pos p). rewrite inject_Z_opp. reflexivity.
Qed.

Lemma trunc_integer (q : Q) (k : Z) : (q == inject_Z k)%Q -> trunc q = k.
Proof.
  destruct q as [a b]. unfold Qeq, trunc; cbn [Qnum Qden inject_Z].
  intros H. rewrite Z.mul_1_r in H. rewrite H. apply Z.quot_mul. lia.
Qed.

(** X8. [int(np.round(x))] is the integer nearest to [x], and the
    conversion loses nothing: the rounded float is that integer (for
    corrections below [2^53] in size, as all are). *)
Theorem rounded_correction_is_integer (x : float) :
  - 2 ^ 53 < rint (B2Q x) < 2 ^ 53 ->
  py_int (np_round x) = rint (B2Q x) /\
  (B2Q (np_round x) == inject_Z (py_int (np_round x)))%Q /\
  (Qabs (B2Q x - inject_Z (py_int (np_round x))) <= 1 # 2)%Q.
Proof.
  intros Hk. unfold np_round, py_int.
  pose proof (of_Z_exact_abs _ Hk) as Hex.
  rewrite (trunc_integer _ _ Hex).
  split; [reflexivity|]. split; [exact Hex|].
  unfold rint. destruct (B2Q x) as [a b]. cbn [Qnum Qden].
  pose proof (rne_spec a (Z.pos b) ltac:(lia)) as Hr.
  apply Qabs_Qle_condition.
  unfold Qle, Qminus, Qplus, Qopp; cbn [Qnum Qden inject_Z].
  rewrite !Pos2Z.inj_mul. nia.
Qed.

Lemma rounded_correction_is_integer_witness :
  - 2 ^ 53 < rint (B2Q (Float (-6755399441055744) (-52))) < 2 ^ 53 /\
  py_int (np_round (Float (-6755399441055744) (-52))) = -2 /\
  (B2Q (np_round (Float (-6755399441055744) (-52)))
   == inject_Z (py_int (np_round (Float (-6755399441055744) (-52)))))%Q /\
  (Qabs (B2Q (Float (-6755399441055744) (-52))
         - inject_Z (py_int (np_round (Float (-6755399441055744) (-52)))))
   <= 1 # 2)%Q.
Proof.
  assert (H : - 2 ^ 53 < rint (B2Q (Float (-6755399441055744) (-52))) < 2 ^ 53)
    by (vm_compute; split; reflexivity).
  split; [exact H|].
  destruct (rounded_correction_is_integer _ H) as (H1 & H2 & H3).
  split; [|split; assumption].
  rewrite H1. reflexivity.
Defined.

(** ** The term of frequency zero *)

Lemma fdiv_zero_l (y : float) : fdiv zero y = zero.
Proof. reflexivity. Qed.

Lemma fmul_zero_l (y : float) : fmul zero y = zero.
Proof. reflexivity. Qed.

Lemma zip_with_fadd_zeros {A : Type} (l : list A) (t : float) :
  zip_with fadd (repeat zero (length l)) (map (fun _ => t) l)
  = repeat (fadd zero t) (length l).
Proof.
  induction l as [|a l IH]; simpl; [reflexivity|]. rewrite IH. reflexivity.
Qed.

(** X9. With a single coefficient the correction is the same at every
    index: the only term has frequency [2 pi 0 / N = 0], so each index gets
    the rounding of [coeffs[0] * cos 0]. *)
Theorem single_coefficient_is_constant (np_cos : float -> float)
    (n_array : list Z) (w : World) :
  (1 <= length n_array)%nat ->
  let c0 := fadd (of_Z (-2)) (fmul (fsub (of_Z 2) (of_Z (-2)))
                                   (rng_stream w (rng_pos w + 0))) in
  value_of (correction_fourier np_cos n_array 1 w)
  = Ok (repeat (np_round (fadd zero (fmul c0 (np_cos zero))))
               (length n_array)).
Proof.
  intros HN c0.
  rewrite correction_fourier_unfold, np_random_uniform_ok by lia.
  unfold corrections_of.
  change (range 1) with [0]. change (Z.to_nat 1) with 1%nat.
  cbn [seq map correction_loop].
  unfold py_truediv. rewrite of_Z_nonzero by lia.
  change (fmul (fmul (of_Z 2) np_pi) (of_Z 0)) with zero.
  rewrite fdiv_zero_l.
  rewrite (map_ext (fun n => fmul (nth (Z.to_nat 0) [c0] zero)
                                  (np_cos (fmul zero (of_Z n))))
                   (fun _ => fmul c0 (np_cos zero)))
    by (intros n; rewrite fmul_zero_l; reflexivity).
  rewrite zip_with_fadd_zeros, map_repeat. reflexivity.
Qed.

Lemma single_coefficient_is_constant_witness :
  (1 <= length [1; 2; 3])%nat /\
  value_of (correction_fourier cos_ref [1; 2; 3] 1 world0)
  = Ok (repeat
          (np_round
             (fadd zero
                (fmul (fadd (of_Z (-2))
                         (fmul (fsub (of_Z 2) (of_Z (-2)))
                               (rng_stream world0 (rng_pos world0 + 0))))
                      (cos_ref zero))))
          (length [1; 2; 3])).
Proof.
  assert (HN : (1 <= length [1; 2; 3])%nat) by (simpl; lia).
  split; [exact HN|].
  exact (single_coefficient_is_constant cos_ref [1; 2; 3] world0 HN).
Defined.

(** ** What a sweep does to the world, and what it keeps *)

Section Sweep.

Variable pow15 : Z -> float.
Variable np_cos : float -> float.
Hypothesis pow15_positive : forall n, 1 <= n -> 0 < Fnum (pow15 n).

Lemma main_loop_world (n_values Ks : list Z)
    (results : list ExperimentResult) (times : list float) (w : World) :
  (1 <= length n_values)%nat ->
  Forall (fun K => 0 <= K) Ks ->
  exists new w',
    main_loop pow15 np_cos n_values Ks results times w
    = Ok ((results ++ new, times ++ map res_elapsed new), w') /\
    length new = length Ks /\
    rng_stream w' = rng_stream w /\ clock w' = clock w /\
    rng_pos w' = (rng_pos w + list_sum (map Z.to_nat Ks))%nat /\
    clock_pos w' = (clock_pos w + 2 * length Ks)%nat.
Proof.
  intros H1 HKs. revert results times w.
  induction HKs as [|K Ks HK _ IH]; intros results times w; simpl.
  - exists [], w. rewrite !app_nil_r. repeat split; lia.
  - destruct (run_K_ok pow15 np_cos pow15_positive n_values K w H1 HK)
      as (vals & _ & _ & Hrun).
    cbv zeta in Hrun. unfold bind. rewrite Hrun.
    match goal with |- context [main_loop _ _ _ _ (results ++ [?r]) _ ?w1] =>
      destruct (IH (results ++ [r]) (times ++ [res_elapsed r]) w1)
        as (new & w' & -> & Hlen & Hs & Hc & Hp & Hcp);
      exists (r :: new), w'
    end.
    cbn [tick consume rng_stream rng_pos clock clock_pos] in *.
    split; [simpl; rewrite <- !app_assoc; reflexivity|].
    repeat split; try assumption; simpl; lia.
Qed.

(** X10. A sweep over a non-empty index range hands over two aligned
    lists, [times] holding the elapsed time of each record and as long as
    [K_VALUES]; it draws from the generator exactly the sum of the K
    values, reads the clock exactly twice per run, and changes nothing
    else. *)
Theorem main_effects (N_MAX : Z) (K_VALUES : list Z) (w : World) :
  1 <= N_MAX ->
  Forall (fun K => 0 <= K) K_VALUES ->
  exists results times w',
    main pow15 np_cos N_MAX K_VALUES w = Ok ((results, times), w') /\
    times = map res_elapsed results /\
    length times = length K_VALUES /\
    rng_stream w' = rng_stream w /\ clock w' = clock w /\
    rng_pos w' = (rng_pos w + list_sum (map Z.to_nat K_VALUES))%nat /\
    clock_pos w' = (clock_pos w + 2 * length K_VALUES)%nat.
Proof.
  intros HN HKs. unfold main.
  assert (H1 : (1 <= length (np_arange 1 (N_MAX + 1)))%nat)
    by (rewrite np_arange_length; lia).
  destruct (main_loop_world (np_arange 1 (N_MAX + 1)) K_VALUES [] [] w H1 HKs)
    as (new & w' & Hmain & Hlen & Hrest).
  exists new, (map res_elapsed new), w'.
  split; [exact Hmain|]. split; [reflexivity|].
  split; [rewrite length_map; exact Hlen|exact Hrest].
Qed.

(** X11. A negative K anywhere in the sequence makes the whole sweep fail
    with NumPy's [ValueError]: the records of the runs before it are not
    returned. *)
Theorem main_negative_K (N_MAX K : Z) (Ks1 Ks2 : list Z) (w : World) :
  1 <= N_MAX ->
  Forall (fun K => 0 <= K) Ks1 ->
  K < 0 ->
  main pow15 np_cos N_MAX (Ks1 ++ K :: Ks2) w = Raise ValueError.
Proof.
  intros HN HKs HK. unfold main.
  assert (H1 : (1 <= length (np_arange 1 (N_MAX + 1)))%nat)
    by (rewrite np_arange_length; lia).
  set (n_values := np_arange 1 (N_MAX + 1)) in *.
  rewrite main_loop_app.
  destruct (main_loop_world n_values Ks1 [] [] w H1 HKs)
    as (new & w1 & -> & _).
  cbn [main_loop]. unfold bind.
  rewrite run_K_unfold, sequence_vals_unfold.
  destruct (map_result_total (base_MFM pow15) n_values
              (base_MFM_total pow15 pow15_positive)) as [bs ->].
  rewrite correction_fourier_unfold. unfold np_random_uniform.
  destruct (Z.ltb_spec K 0); [reflexivity|lia].
Qed.

(** X12. The elapsed time of a run is the difference of two successive
    readings of the clock, and it is not negative when the second reading
    is not below the first. *)
Theorem elapsed_nonnegative (n_values : list Z) (K : Z) (w : World) :
  (1 <= length n_values)%nat -> 0 <= K ->
  (B2Q (clock w (clock_pos w)) <= B2Q (clock w (S (clock_pos w))))%Q ->
  exists r w',
    run_K pow15 np_cos n_values K w = Ok (r, w') /\
    res_elapsed r
    = fsub (clock w (S (clock_pos w))) (clock w (clock_pos w)) /\
    (0 <= B2Q (res_elapsed r))%Q.
Proof.
  intros H1 HK Hclock.
  destruct (run_K_ok pow15 np_cos pow15_positive n_values K w H1 HK)
    as (vals & _ & _ & Hrun).
  cbv zeta in Hrun. rewrite Hrun.
  eexists _, _. split; [reflexivity|]. cbn [res_elapsed].
  split; [reflexivity|].
  unfold fsub. apply round_nonneg.
  set (t0 := B2Q (clock w (clock_pos w))) in *.
  set (t1 := B2Q (clock w (S (clock_pos w)))) in *. lra.
Qed.

End Sweep.

Lemma main_effects_witness :
  (forall n, 1 <= n -> 0 < Fnum (pow15_cr n)) /\
  1 <= 3 /\ Forall (fun K => 0 <= K) [1; 0] /\
  exists results times w',
    main pow15_cr cos_ref 3 [1; 0] world0 = Ok ((results, times), w') /\
    times = map res_elapsed results /\
    length times = length [1; 0] /\
    rng_stream w' = rng_stream world0 /\ clock w' = clock world0 /\
    rng_pos w' = (rng_pos world0 + list_sum (map Z.to_nat [1; 0]%Z))%nat /\
    clock_pos w' = (clock_pos world0 + 2 * length [1; 0]%Z)%nat.
Proof.
  assert (HN : 1 <= 3) by lia.
  assert (HK : Forall (fun K => 0 <= K) [1; 0])
    by (repeat constructor; discriminate).
  split; [exact pow15_cr_positive|]. split; [exact HN|]. split; [exact HK|].
  exact (main_effects pow15_cr cos_ref pow15_cr_positive 3 [1; 0] world0
           HN HK).
Defined.

Lemma main_negative_K_witness :
  (forall n, 1 <= n -> 0 < Fnum (pow15_cr n)) /\
  1 <= 3 /\ Forall (fun K => 0 <= K) [1] /\ -4 < 0 /\
  main pow15_cr cos_ref 3 ([1] ++ -4 :: [5]) world0 = Raise ValueError.
Proof.
  assert (HN : 1 <= 3) by lia.
  assert (HKs : Forall (fun K => 0 <= K) [1])
    by (repeat constructor; discriminate).
  assert (HK : -4 < 0) by lia.
  split; [exact pow15_cr_positive|]. split; [exact HN|].
  split; [exact HKs|]. split; [exact HK|].
  exact (main_negative_K pow15_cr cos_ref pow15_cr_positive 3 (-4) [1] [5]
           world0 HN HKs HK).
Defined.

Lemma sample_clock_step :
  (B2Q (clock world0 (clock_pos world0))
   <= B2Q (clock world0 (S (clock_pos world0))))%Q.
Proof. vm_compute. discriminate. Qed.

Lemma elapsed_nonnegative_witness :
  (forall n, 1 <= n -> 0 < Fnum (pow15_cr n)) /\
  (1 <= length [1; 2; 3])%nat /\ 0 <= 1 /\
  (B2Q (clock world0 (clock_pos world0))
   <= B2Q (clock world0 (S (clock_pos world0))))%Q /\
  exists r w',
    run_K pow15_cr cos_ref [1; 2; 3] 1 world0 = Ok (r, w') /\
    res_elapsed r
    = fsub (clock world0 (S (clock_pos world0)))
           (clock world0 (clock_pos world0)) /\
    (0 <= B2Q (res_elapsed r))%Q.
Proof.
  assert (HN : (1 <= length [1; 2; 3])%nat) by (simpl; lia).
  assert (HK : 0 <= 1) by lia.
  split; [exact pow15_cr_positive|]. split; [exact HN|]. split; [exact HK|].
  split; [exact sample_clock_step|].
  exact (elapsed_nonnegative pow15_cr cos_ref pow15_cr_positive [1; 2; 3] 1
           world0 HN HK sample_clock_step).
Defined.

(** ** How far a correction can move a base value *)

Lemma fmul_bound (c y : float) :
  (- (2) <= B2Q c <= 2)%Q -> (- (1) <= B2Q y <= 1)%Q ->
  (- (2) <= B2Q (fmul c y) <= 2)%Q.
Proof.
  intros Hc Hy. unfold fmul.
  apply (round_within_int _ 2); [split; [lia|discriminate]|].
  change (inject_Z 2) with 2%Q.
  set (p := B2Q c) in *. set (r := B2Q y) in *. clearbody p r.
  split; nra.
Qed.

Lemma fadd_bound (s t : float) (B : Z) :
  0 <= B -> B + 2 <= 2 ^ 50 ->
  (- inject_Z B <= B2Q s <= inject_Z B)%Q ->
  (- (2) <= B2Q t <= 2)%Q ->
  (- inject_Z (B + 2) <= B2Q (fadd s t) <= inject_Z (B + 2))%Q.
Proof.
  intros HB HB2 Hs Ht. unfold fadd.
  apply round_within_int; [lia|].
  rewrite inject_Z_plus. change (inject_Z 2) with 2%Q. lra.
Qed.

Lemma Forall_zip_with {A B C : Type} (f : A -> B -> C) (P : A -> Prop)
    (R : B -> Prop) (S : C -> Prop) (l : list A) (l' : list B) :
  (forall a b, P a -> R b -> S (f a b)) ->
  Forall P l -> Forall R l' -> Forall S (zip_with f l l').
Proof.
  intros Hf Hl. revert l'.
  induction Hl as [|a l Ha _ IH]; intros l' Hl'; [constructor|].
  destruct Hl' as [|b l' Hb Hl']; [constructor|].
  simpl. constructor; [apply Hf; assumption|apply IH; assumption].
Qed.

Lemma correction_loop_bound (np_cos : float -> float) (n_array : list Z)
    (N : Z) (coeffs : list float) :
  is_zero (of_Z N) = false ->
  (forall x, (- (1) <= B2Q (np_cos x) <= 1)%Q) ->
  Forall (fun c => (- (2) <= B2Q c <= 2)%Q) coeffs ->
  forall (ks : list Z) (corrections : list float) (B : Z),
    0 <= B -> B + 2 * Z.of_nat (length ks) <= 2 ^ 50 ->
    Forall (fun x => (- inject_Z B <= B2Q x <= inject_Z B)%Q) corrections ->
    exists c,
      correction_loop np_cos n_array N coeffs ks corrections = Ok c /\
      Forall (fun x => (- inject_Z (B + 2 * Z.of_nat (length ks)) <= B2Q x
                        <= inject_Z (B + 2 * Z.of_nat (length ks)))%Q) c.
Proof.
  intros HN Hcos Hcoeffs.
  induction ks as [|k ks IH]; intros corrections B HB HB2 Hcorr.
  - exists corrections. split; [reflexivity|].
    simpl. rewrite Z.add_0_r. assumption.
  - cbn [correction_loop]. unfold py_truediv. rewrite HN.
    cbn [length] in HB2.
    match goal with |- context [correction_loop _ _ _ _ ks ?c1] =>
      destruct (IH c1 (B + 2) ltac:(lia) ltac:(lia)) as (c & Hc & Hb)
    end.
    + apply (Forall_zip_with fadd
               (fun x => (- inject_Z B <= B2Q x <= inject_Z B)%Q)
               (fun t => (- (2) <= B2Q t <= 2)%Q)); [| assumption |].
      * intros s t Hs Ht. apply fadd_bound; [lia|lia|assumption|assumption].
      * apply Forall_forall. intros t Ht. apply in_map_iff in Ht.
        destruct Ht as (n & <- & _). apply fmul_bound; [|apply Hcos].
        destruct (nth_in_or_default (Z.to_nat k) coeffs zero) as [Hin| ->].
        -- rewrite Forall_forall in Hcoeffs. apply Hcoeffs. assumption.
        -- change (B2Q zero) with (0 * 1)%Q. lra.
    + exists c. split; [assumption|].
      cbn [length].
      replace (B + 2 * Z.of_nat (S (length ks)))
        with (B + 2 + 2 * Z.of_nat (length ks)) by lia.
      assumption.
Qed.

Lemma np_round_bound (x : float) (n : Z) :
  0 <= n <= 2 ^ 50 ->
  (- inject_Z n <= B2Q x <= inject_Z n)%Q ->
  - n <= py_int (np_round x) <= n.
Proof.
  intros Hn [Hlo Hhi].
  assert (Hk : - n <= rint (B2Q x) <= n).
  { unfold rint. destruct (B2Q x) as [a b].
    unfold Qle in Hlo, Hhi; cbn [Qnum Qden inject_Z Qopp] in Hlo, Hhi.
    cbn [Qnum Qden]. split.
    - apply rne_ge; lia.
    - apply rne_le; lia. }
  unfold np_round, py_int.
  rewrite (trunc_integer _ (rint (B2Q x))); [assumption|].
  apply of_Z_exact_abs.
  assert (2 ^ 50 < 2 ^ 53) by reflexivity. lia.
Qed.

Lemma zip_with_Forall2 {A B C : Type} (f : A -> B -> C) (R : B -> Prop)
    (S : A -> C -> Prop) (l : list A) (l' : list B) :
  length l = length l' ->
  (forall a b, R b -> S a (f a b)) ->
  Forall R l' -> Forall2 S l (zip_with f l l').
Proof.
  revert l'. induction l as [|a l IH]; intros [|b l'] Hlen Hf Hl';
    simpl in *; try discriminate; [constructor|].
  inversion Hl'; subst. constructor; [apply Hf; assumption|].
  apply IH; [lia|assumption|assumption].
Qed.

(** X13. A correction moves a base value by at most [2 K]: when the cosine
    stays within [[-1, 1]] and the generator's samples within [[0, 1]], every
    corrected value of a run lies between [base - 2 K] and [base + 2 K]
    (for an index range that is not empty, and [K] up to [2^48]). *)
Theorem corrected_values_near_base (pow15 : Z -> float)
    (np_cos : float -> float) (n_values : list Z) (K : Z) (w : World) :
  (forall n, 1 <= n -> 0 < Fnum (pow15 n)) ->
  (forall x, (- (1) <= B2Q (np_cos x) <= 1)%Q) ->
  (forall i, (0 <= B2Q (rng_stream w i) <= 1)%Q) ->
  (1 <= length n_values)%nat -> 0 <= K <= 2 ^ 48 ->
  exists base_vals vals,
    map_result (base_MFM pow15) n_values = Ok base_vals /\
    value_of (sequence_vals pow15 np_cos n_values K w) = Ok vals /\
    Forall2 (fun b v => b - 2 * K <= v <= b + 2 * K) base_vals vals.
Proof.
  intros Hpow Hcos Hu HN HK.
  destruct (map_result_total (base_MFM pow15) n_values
              (base_MFM_total pow15 Hpow)) as [bs Hbs].
  pose proof (map_result_length _ _ _ Hbs) as Hblen.
  rewrite sequence_vals_unfold, Hbs.
  rewrite correction_fourier_unfold, np_random_uniform_ok by lia.
  unfold corrections_of.
  match goal with |- context [correction_loop _ _ ?N ?cs ?ks ?c0] =>
    destruct (correction_loop_bound np_cos n_values N cs
                ltac:(apply of_Z_nonzero; lia) Hcos
                ltac:(apply Forall_forall; intros c Hc;
                      apply in_map_iff in Hc; destruct Hc as (i & <- & _);
                      apply uniform_sample_range; apply Hu)
                ks c0 0 ltac:(lia))
      as (c & Hc & Hb)
  end.
  - unfold range. rewrite length_map, length_seq.
    assert (2 * 2 ^ 48 <= 2 ^ 50) by discriminate. lia.
  - apply Forall_forall. intros x Hx. apply repeat_spec in Hx. subst x.
    change (B2Q zero) with (0 * 1)%Q. change (inject_Z 0) with 0%Q. lra.
  - pose proof (correction_loop_ok np_cos n_values
                  (Z.of_nat (length n_values))
                  (map (fun i => fadd (of_Z (-2))
                                   (fmul (fsub (of_Z 2) (of_Z (-2)))
                                         (rng_stream w (rng_pos w + i)%nat)))
                       (seq 0 (Z.to_nat K)))
                  (range K) (repeat zero (length n_values))
                  ltac:(apply of_Z_nonzero; lia)
                  (repeat_length zero (length n_values)))
      as (c' & Hc' & Hclen).
    rewrite Hc in Hc'. injection Hc' as <-.
    rewrite Hc. cbn [value_of].
    exists bs. eexists. split; [reflexivity|]. split; [reflexivity|].
    unfold range in Hb. rewrite length_map, length_seq in Hb.
    replace (0 + 2 * Z.of_nat (Z.to_nat K)) with (2 * K) in Hb by lia.
    apply (zip_with_Forall2 _
             (fun x => - (2 * K) <= py_int x <= 2 * K)).
    + rewrite length_map. lia.
    + intros b x Hx. lia.
    + apply Forall_forall. intros x Hx. apply in_map_iff in Hx.
      destruct Hx as (y & <- & Hy).
      rewrite Forall_forall in Hb.
      apply np_round_bound; [|apply Hb; assumption].
      assert (2 * 2 ^ 48 <= 2 ^ 50) by discriminate. lia.
Qed.

Lemma cos_sat_range (x : float) : (- (1) <= B2Q (cos_sat x) <= 1)%Q.
Proof.
  unfold cos_sat. cbv zeta.
  destruct (Qle_bool (- (1)) (B2Q (cos_ref x)) && Qle_bool (B2Q (cos_ref x)) 1)
    eqn:E.
  - apply andb_true_iff in E. destruct E as [E1 E2].
    apply Qle_bool_iff in E1. apply Qle_bool_iff in E2. split; assumption.
  - split; discriminate.
Qed.

Lemma corrected_values_near_base_witness :
  (forall n, 1 <= n -> 0 < Fnum (pow15_cr n)) /\
  (forall x, (- (1) <= B2Q (cos_sat x) <= 1)%Q) /\
  (forall i, (0 <= B2Q (rng_stream world0 i) <= 1)%Q) /\
  (1 <= length [1; 2; 3])%nat /\ 0 <= 2 <= 2 ^ 48 /\
  exists base_vals vals,
    map_result (base_MFM pow15_cr) [1; 2; 3] = Ok base_vals /\
    value_of (sequence_vals pow15_cr cos_sat [1; 2; 3] 2 world0) = Ok vals /\
    Forall2 (fun b v => b - 2 * 2 <= v <= b + 2 * 2) base_vals vals.
Proof.
  assert (HN : (1 <= length [1; 2; 3])%nat) by (simpl; lia).
  assert (HK : 0 <= 2 <= 2 ^ 48) by (split; discriminate).
  split; [exact pow15_cr_positive|]. split; [exact cos_sat_range|].
  split; [exact sample_stream_range|]. split; [exact HN|]. split; [exact HK|].
  exact (corrected_values_near_base pow15_cr cos_sat [1; 2; 3] 2 world0
           pow15_cr_positive cos_sat_range sample_stream_range HN HK).
Defined.

(** ** The ends of the prime fraction *)

Lemma rne_multiple (k b : Z) : 0 < b -> rne (k * b) b = k.
Proof.
  intros Hb. unfold rne. rewrite Z.mod_mul, Z.div_mul by lia.
  destruct (Z.compare_spec (2 * 0) b); lia.
Qed.

Lemma round_pos_diag (X : Z) : 0 < X -> round_pos X X = of_Z 1.
Proof.
  intros HX. unfold round_pos.
  assert (El : ilog2 X X = 0).
  { unfold ilog2, scale. rewrite Z.sub_diag. change (- 0) with 0.
    cbn [Z.leb Z.compare]. rewrite Z.pow_0_r, Z.mul_1_r, Z.ltb_irrefl.
    reflexivity. }
  rewrite El. unfold scale. change (0 <=? 52 - 0) with true. cbv iota.
  rewrite (Z.mul_comm X), rne_multiple by assumption. reflexivity.
Qed.

Lemma fdiv_diag (x : float) : 0 < Fnum x -> fdiv x x = of_Z 1.
Proof.
  intros Hx. unfold fdiv, round.
  destruct x as [m e]; cbn [Fnum] in Hx. unfold B2Q; cbn [Fnum Fexp].
  assert (Hp : exists a b, (inject_Z m * pow2 e)%Q = Z.pos a # b).
  { destruct m as [|p|p]; try lia.
    destruct e as [|q|q]; unfold pow2, Qmult; cbn [Qnum Qden inject_Z].
    - eexists _, _. reflexivity.
    - rewrite <- Pos2Z.inj_pow. eexists _, _. reflexivity.
    - eexists _, _. reflexivity. }
  destruct Hp as (a & b & ->).
  unfold Qdiv, Qinv, Qmult; cbn [Qnum Qden].
  rewrite (Pos.mul_comm b a). apply round_pos_diag. reflexivity.
Qed.

Lemma of_Z_positive (n : Z) : 1 <= n -> 0 < Fnum (of_Z n).
Proof.
  intros Hn. unfold of_Z, round. cbn [inject_Z Qnum Qden].
  destruct n as [|p|p]; try lia.
  unfold round_pos. rewrite ilog2_integer by lia.
  pose proof (Z.log2_spec (Z.pos p) ltac:(lia)) as [Hl Hu].
  pose proof (Z.log2_nonneg (Z.pos p)) as H0.
  set (l := Z.log2 (Z.pos p)) in *.
  assert (Hm : forall m, 1 <= m ->
            0 < Fnum (if m =? 2 ^ 53 then Float (2 ^ 52) (l - 51)
                      else Float m (l - 52))).
  { intros m Hm1. destruct (m =? 2 ^ 53); cbn [Fnum]; [reflexivity|lia]. }
  unfold scale. destruct (Z.leb_spec 0 (52 - l)) as [Hs|Hs].
  - apply Hm. rewrite rne_integer.
    assert (0 < 2 ^ (52 - l)) by (apply Z.pow_pos_nonneg; lia). nia.
  - apply Hm. apply rne_ge.
    + rewrite Z.mul_1_l. apply Z.pow_pos_nonneg; lia.
    + rewrite !Z.mul_1_l. apply Z.le_trans with (2 ^ l); [|assumption].
      apply Z.pow_le_mono_r; lia.
Qed.

Lemma filter_all {A : Type} (f : A -> bool) (l : list A) :
  Forall (fun a => f a = true) l -> filter f l = l.
Proof.
  induction 1 as [|a l Ha _ IH]; simpl; [reflexivity|].
  rewrite Ha, IH. reflexivity.
Qed.

Lemma filter_none {A : Type} (f : A -> bool) (l : list A) :
  Forall (fun a => f a = false) l -> filter f l = [].
Proof.
  induction 1 as [|a l Ha _ IH]; simpl; [reflexivity|].
  rewrite Ha, IH. reflexivity.
Qed.

(** X14. The recorded prime fraction is exactly 1.0 when every corrected
    value of the run is prime and exactly 0.0 when none is, for every
    index range that is not empty. *)
Theorem prime_fraction_ends (pow15 : Z -> float) (np_cos : float -> float)
    (n_values : list Z) (K : Z) (w : World) :
  (forall n, 1 <= n -> 0 < Fnum (pow15 n)) ->
  (1 <= length n_values)%nat -> 0 <= K ->
  exists r w' vals,
    run_K pow15 np_cos n_values K w = Ok (r, w') /\
    value_of (sequence_vals pow15 np_cos n_values K (tick w)) = Ok vals /\
    (Forall (fun v => is_prime_pythonic v = true) vals ->
     res_prime_count r = Z.of_nat (length n_values) /\
     res_prime_fraction r = of_Z 1) /\
    (Forall (fun v => is_prime_pythonic v = false) vals ->
     res_prime_count r = 0 /\ res_prime_fraction r = of_Z 0).
Proof.
  intros Hpow HN HK.
  destruct (run_K_ok pow15 np_cos Hpow n_values K w HN HK)
    as (vals & Hvals & Hlen & Hrun).
  cbv zeta in Hrun. rewrite Hrun, Hvals.
  eexists _, _, vals. split; [reflexivity|]. split; [reflexivity|].
  cbn [res_prime_count res_prime_fraction].
  rewrite py_sum_count, filter_map_length. split.
  - intros Hall. rewrite (filter_all _ _ Hall), Hlen.
    split; [reflexivity|]. apply fdiv_diag. apply of_Z_positive. lia.
  - intros Hnone. rewrite (filter_none _ _ Hnone).
    split; reflexivity.
Qed.

Lemma prime_fraction_ends_witness :
  (forall n, 1 <= n -> 0 < Fnum (pow15_cr n)) /\
  (1 <= length [1; 2; 3])%nat /\ 0 <= 0 /\
  exists r w' vals,
    run_K pow15_cr cos_ref [1; 2; 3] 0 world0 = Ok (r, w') /\
    value_of (sequence_vals pow15_cr cos_ref [1; 2; 3] 0 (tick world0))
    = Ok vals /\
    (Forall (fun v => is_prime_pythonic v = true) vals ->
     res_prime_count r = Z.of_nat (length [1; 2; 3]) /\
     res_prime_fraction r = of_Z 1) /\
    (Forall (fun v => is_prime_pythonic v = false) vals ->
     res_prime_count r = 0 /\ res_prime_fraction r = of_Z 0).
Proof.
  assert (HN : (1 <= length [1; 2; 3])%nat) by (simpl; lia).
  assert (HK : 0 <= 0) by lia.
  split; [exact pow15_cr_positive|]. split; [exact HN|]. split; [exact HK|].
  exact (prime_fraction_ends pow15_cr cos_ref [1; 2; 3] 0 world0
           pow15_cr_positive HN HK).
Defined.

(** ** The Fibonacci numbers *)


